(** * xivanalysis: buff tracker, uptime reducer and Requiescat window classifier

    A shallow embedding of [src/parser/core/modules/Entities.js] (module
    [Entities]) and of the paladin Requiescat analysis module (module
    [Requiescat]), with the properties of the specification stated and
    settled on it.

    Timestamps, stack counts and resource amounts are integers of the log and
    are modelled in [Z]; a JavaScript [null]/[undefined] field is an [option].
    JavaScript objects that the code mutates through an alias are modelled
    with the alias made explicit (see [RangeRef]). *)

From stdpp Require Import base option list sorting gmap strings.
From Stdlib Require Import ZArith QArith Lia.

Local Open Scope Z_scope.

(** [x || y] and the numeric coercion of [null] on JavaScript numbers. *)
Definition toNum (o : option Z) : Z := default 0 o.

Definition orElse (o : option Z) (d : Z) : Z :=
  match o with
  | Some v => if v =? 0 then d else v
  | None => d
  end.

Module Entities.

(** ** Data model *)

Inductive EventType :=
  | applybuff | applydebuff
  | applybuffstack | applydebuffstack
  | removebuffstack | removedebuffstack
  | removebuff | removedebuff.

Record Ability := { guid : Z }.

(** A buff event of the log. *)
Record BuffEvent := {
  type : EventType;
  timestamp : Z;
  ability : Ability;
  sourceID : option Z;
  targetID : option Z;
  stack : option Z
}.

(** An entry of [stackHistory]; the count of a stack event is the [stack] field
    of the event, which an event may lack. *)
Record StackEntry := { stacks_at : option Z; at_timestamp : Z }.

(** A tracked buff: [{...event, start, end, stackHistory, isDebuff}] plus the
    [stacks] field that [applyBuff] and [updateBuffStack] assign.  [origin]
    holds the fields spread from the event, which no handler writes to. *)
Record Buff := {
  origin : BuffEvent;
  start : Z;
  end_ : option Z;
  stacks : option Z;
  stackHistory : list StackEntry;
  isDebuff : bool
}.

Definition buff_guid (b : Buff) : Z := guid (ability (origin b)).
Definition buff_sourceID (b : Buff) : option Z := sourceID (origin b).

Record Entity := { id : Z; buffs : list Buff }.

(** What the invulnerability module returns from [getInvulns]. *)
Record Invuln := { inv_start : Z; inv_end : Z; inv_type : string }.

(** ** getStatusUptime *)

(** A range object of the subtraction step.  [ranges] starts as [[buff]]: its
    first element is the buff object itself until a splice replaces it, so a
    write to that range is a write to the buff. *)
Record Range := { r_start : Z; r_end : option Z }.

Inductive RangeRef :=
  | TheBuff
  | Fresh (r : Range).

(** The faked events; their [buff] field is never read by the reduction. *)
Inductive FakeType := APPLY | REMOVE.
Record FakeEvent := { fe_timestamp : Z; fe_type : FakeType }.

Definition apply_at (t : Z) : FakeEvent := {| fe_timestamp := t; fe_type := APPLY |}.
Definition remove_at (t : Z) : FakeEvent := {| fe_timestamp := t; fe_type := REMOVE |}.

Definition range_start (b : Buff) (r : RangeRef) : Z :=
  match r with TheBuff => start b | Fresh r => r_start r end.

Definition range_end (b : Buff) (r : RangeRef) : option Z :=
  match r with TheBuff => end_ b | Fresh r => r_end r end.

Definition set_start (b : Buff) (v : Z) : Buff :=
  {| origin := origin b; start := v; end_ := end_ b; stacks := stacks b;
     stackHistory := stackHistory b; isDebuff := isDebuff b |}.

Definition set_end (b : Buff) (v : option Z) : Buff :=
  {| origin := origin b; start := start b; end_ := v; stacks := stacks b;
     stackHistory := stackHistory b; isDebuff := isDebuff b |}.

(** [range.start = v] and [range.end = v] for the range at index [i]. *)
Definition write_start (i : nat) (r : RangeRef) (v : Z)
    (st : Buff * list RangeRef) : Buff * list RangeRef :=
  match r with
  | TheBuff => (set_start st.1 v, st.2)
  | Fresh r => (st.1, <[i := Fresh {| r_start := v; r_end := r_end r |}]> st.2)
  end.

Definition write_end (i : nat) (r : RangeRef) (v : Z)
    (st : Buff * list RangeRef) : Buff * list RangeRef :=
  match r with
  | TheBuff => (set_end st.1 (Some v), st.2)
  | Fresh r => (st.1, <[i := Fresh {| r_start := r_start r; r_end := Some v |}]> st.2)
  end.

(** [ranges.splice(i, 1, x, y)]. *)
Definition splice2 {A} (i : nat) (x y : A) (l : list A) : list A :=
  take i l ++ [x; y] ++ drop (S i) l.

(** The loop [for (let i = 0; i < ranges.length; i++)] for one invuln, from
    index [i] on.  The list can grow while it is walked, so the loop is run
    on fuel: [None] is a loop that has not finished within [fuel] rounds. *)
Fixpoint split_ranges (fuel : nat) (inv : Invuln) (i : nat)
    (st : Buff * list RangeRef) : option (Buff * list RangeRef) :=
  match fuel with
  | O => None
  | S fuel' =>
    match st.2 !! i with
    | None => Some st
    | Some r =>
      let s := range_start st.1 r in
      let e := range_end st.1 r in
      if (inv_start inv <? s) && (inv_end inv >? s) then
        split_ranges fuel' inv (S i) (write_start i r (inv_end inv) st)
      else if (inv_start inv <? toNum e) && (inv_end inv >? toNum e) then
        split_ranges fuel' inv (S i) (write_end i r (inv_start inv) st)
      else if (inv_start inv >? s) && (inv_end inv <? toNum e) then
        split_ranges fuel' inv (S i)
          (st.1, splice2 i (Fresh {| r_start := s; r_end := Some (inv_start inv) |})
                           (Fresh {| r_start := inv_end inv; r_end := e |}) st.2)
      else split_ranges fuel' inv (S i) st
    end
  end.

(** The body of [invulns.forEach]: discard, else split. *)
Definition apply_invuln (fuel : nat) (inv : Invuln)
    (st : Buff * list RangeRef) : option (Buff * list RangeRef) :=
  if (inv_end inv <? start st.1) || (inv_start inv >? toNum (end_ st.1))
  then Some st
  else split_ranges fuel inv 0 st.

Fixpoint subtract_invulns (fuel : nat) (invulns : list Invuln)
    (st : Buff * list RangeRef) : option (Buff * list RangeRef) :=
  match invulns with
  | [] => Some st
  | inv :: rest => st' ← apply_invuln fuel inv st; subtract_invulns fuel rest st'
  end.

(** Events are kept sorted by [events.sort((a, b) => a.timestamp - b.timestamp)];
    [Array.prototype.sort] is stable, which insertion from the right gives. *)
Fixpoint insert_event (x : FakeEvent) (l : list FakeEvent) : list FakeEvent :=
  match l with
  | [] => [x]
  | y :: l' =>
    if fe_timestamp x <=? fe_timestamp y then x :: l else y :: insert_event x l'
  end.

Definition sort_events (l : list FakeEvent) : list FakeEvent :=
  foldr insert_event [] l.

(** The order the comparator sorts by. *)
Definition by_timestamp (x y : FakeEvent) : Prop := fe_timestamp x <= fe_timestamp y.

(** The reduction: [active], [start] and the accumulated [uptime]. *)
Record Sweep := { active : Z; sweep_start : option Z; uptime : Z }.

Definition sweep_step (s : Sweep) (ev : FakeEvent) : Sweep :=
  match fe_type ev with
  | APPLY =>
    {| active := active s + 1;
       sweep_start := if active s =? 0 then Some (fe_timestamp ev) else sweep_start s;
       uptime := uptime s |}
  | REMOVE =>
    {| active := active s - 1;
       sweep_start := sweep_start s;
       uptime := if active s - 1 =? 0
                 then uptime s + (fe_timestamp ev - toNum (sweep_start s))
                 else uptime s |}
  end.

Definition reduce_events (l : list FakeEvent) : Z :=
  uptime (foldl sweep_step {| active := 0; sweep_start := None; uptime := 0 |} l).

(** What the reduction computes on a sorted list, told without the [start]
    variable: with [a] buffs up since the event at time [last], the time to
    the next event counts when [a] is positive. *)
Definition delta (ev : FakeEvent) : Z :=
  match fe_type ev with APPLY => 1 | REMOVE => -1 end.

Fixpoint covered (a last : Z) (l : list FakeEvent) : Z :=
  match l with
  | [] => 0
  | ev :: l' =>
    (if 0 <? a then fe_timestamp ev - last else 0)
    + covered (a + delta ev) (fe_timestamp ev) l'
  end.

(** The count of buffs up never drops below zero and ends at zero. *)
Fixpoint balanced (a : Z) (l : list FakeEvent) : Prop :=
  match l with
  | [] => a = 0
  | ev :: l' => 0 <= a + delta ev ∧ balanced (a + delta ev) l'
  end.

(** Sorted by timestamp, and not before [last]. *)
Fixpoint sorted_from (last : Z) (l : list FakeEvent) : Prop :=
  match l with
  | [] => True
  | ev :: l' => last <= fe_timestamp ev ∧ sorted_from (fe_timestamp ev) l'
  end.

(** The events of a list of intervals, as [getStatusUptime] pushes them. *)
Definition interval_events (ivs : list (Z * Z)) : list FakeEvent :=
  flat_map (λ iv, [apply_at iv.1; remove_at iv.2]) ivs.

Definition is_invulnerable (inv : Invuln) : bool :=
  String.eqb (inv_type inv) "invulnerable".

Definition buff_matches (statusId sourceId : Z) (b : Buff) : bool :=
  negb ( negb (buff_guid b =? statusId)
      || (negb (bool_decide (buff_sourceID b = Some sourceId))
          && negb (bool_decide (buff_sourceID b = None)))).

(** What the module reads from its surroundings: [parser.byPlayer],
    [parser.toPlayer], [parser.fight.start_time], [parser.currentTimestamp],
    [invuln.getInvulns] of the invulnerability module, and [getEntity], which
    this class leaves to its subclasses ("Not implemented"): the resolution
    strategy, which reads the entity table and answers with the position of
    an entity of [getEntities()] or with [null]. *)
Class Env := {
  byPlayer : BuffEvent → bool;
  toPlayer : BuffEvent → bool;
  start_time : Z;
  currentTimestamp : Z;
  getInvulns : Z → list Invuln;
  getEntity : list Entity → BuffEvent → option nat
}.

Section Uptime.

Context {env : Env}.

(** The invulns [getStatusUptime] keeps for an entity. *)
Definition invulnerable_of (entityId : Z) : list Invuln :=
  filter (λ inv, is_invulnerable inv = true) (getInvulns entityId).

Definition range_events (b : Buff) (ranges : list RangeRef) : list FakeEvent :=
  flat_map (λ r,
    [ apply_at (range_start b r);
      remove_at (orElse (range_end b r) currentTimestamp) ])
    ranges.

(** The body of [entity.buffs.forEach]: the buff as the call leaves it and
    the events it pushes. *)
Definition visit_buff (fuel : nat) (invulns : list Invuln) (statusId sourceId : Z)
    (b : Buff) : option (Buff * list FakeEvent) :=
  if buff_matches statusId sourceId b then
    st ← subtract_invulns fuel invulns (b, [TheBuff]);
    Some (st.1, range_events st.1 st.2)
  else Some (b, []).

Fixpoint visit_buffs (fuel : nat) (invulns : list Invuln) (statusId sourceId : Z)
    (bs : list Buff) : option (list Buff * list FakeEvent) :=
  match bs with
  | [] => Some ([], [])
  | b :: rest =>
    r ← visit_buff fuel invulns statusId sourceId b;
    rs ← visit_buffs fuel invulns statusId sourceId rest;
    Some (r.1 :: rs.1, r.2 ++ rs.2)
  end.

Definition visit_entity (fuel : nat) (statusId sourceId : Z)
    (e : Entity) : option (Entity * list FakeEvent) :=
  r ← visit_buffs fuel (invulnerable_of (id e)) statusId sourceId (buffs e);
  Some ({| id := id e; buffs := r.1 |}, r.2).

Fixpoint visit_entities (fuel : nat) (statusId sourceId : Z)
    (es : list Entity) : option (list Entity * list FakeEvent) :=
  match es with
  | [] => Some ([], [])
  | e :: rest =>
    r ← visit_entity fuel statusId sourceId e;
    rs ← visit_entities fuel statusId sourceId rest;
    Some (r.1 :: rs.1, r.2 ++ rs.2)
  end.

(** [getStatusUptime(statusId, sourceId)] over the entities of
    [getEntities()], in [Object.values] order: the uptime returned and the
    entities as the call leaves them. *)
Definition getStatusUptime (fuel : nat) (es : list Entity) (statusId sourceId : Z)
    : option (Z * list Entity) :=
  r ← visit_entities fuel statusId sourceId es;
  Some (reduce_events (sort_events r.2), r.1).

(** The interval of a buff that no invuln touches. *)
Definition buff_interval (b : Buff) : Z * Z :=
  (start b, orElse (end_ b) currentTimestamp).

(** The events of a buff that no invuln touches. *)
Definition buff_events (b : Buff) : list FakeEvent :=
  range_events b [TheBuff].

(** An entity on which the subtraction step has nothing to do: it has no
    invuln of kind invulnerable, or none of its buffs is selected. *)
Definition untouched (statusId sourceId : Z) (e : Entity) : Prop :=
  invulnerable_of (id e) = [] ∨
  Forall (λ b, buff_matches statusId sourceId b = false) (buffs e).

End Uptime.

(** The buffs of a list that the query selects. *)
Definition matching (statusId sourceId : Z) (bs : list Buff) : list Buff :=
  filter (λ b, buff_matches statusId sourceId b = true) bs.

(** An invuln that the discard test of [getStatusUptime] throws away for a
    buff: it ends before the buff starts or starts after the buff ends, with
    the end of an open buff read as the number 0. *)
Definition discarded_for (b : Buff) (inv : Invuln) : Prop :=
  inv_end inv < start b ∨ toNum (end_ b) < inv_start inv.

(** Intervals in the order of the log: each starts before it ends and not
    before the one before it has ended. *)
Fixpoint chronological (last : Z) (ivs : list (Z * Z)) : Prop :=
  match ivs with
  | [] => True
  | iv :: rest => last <= iv.1 ∧ iv.1 <= iv.2 ∧ chronological iv.2 rest
  end.

Definition total_duration (ivs : list (Z * Z)) : Z :=
  foldr (λ iv acc, (iv.2 - iv.1) + acc) 0 ivs.

(** The ranges of a list that one more round of the loop for [inv] may
    split: the buff itself, whatever it reads, and the fresh ranges that have
    the invuln strictly inside. *)
Definition may_split (inv : Invuln) (r : RangeRef) : nat :=
  match r with
  | TheBuff => 1
  | Fresh r =>
    if (inv_start inv >? r_start r) && (inv_end inv <? toNum (r_end r)) then 1 else 0
  end.

Definition splits_left (inv : Invuln) (rs : list RangeRef) : nat :=
  foldr (λ r n, (may_split inv r + n)%nat) 0%nat rs.

Section UptimeLaws.

Context {env : Env}.

(** An entity none of whose selected buffs keeps an invuln. *)
Definition unaffected (statusId sourceId : Z) (e : Entity) : Prop :=
  Forall (λ b, buff_matches statusId sourceId b = true →
               Forall (discarded_for b) (invulnerable_of (id e))) (buffs e).

(** The intervals of the selected buffs of a tracker, in table order. *)
Definition selected_intervals (statusId sourceId : Z) (es : list Entity) : list (Z * Z) :=
  buff_interval <$> matching statusId sourceId (flat_map buffs es).

End UptimeLaws.

(** The surroundings with an invulnerability module that knows no invuln. *)
Definition without_invulns (env : Env) : Env :=
  {| byPlayer := byPlayer; toPlayer := toPlayer; start_time := start_time;
     currentTimestamp := currentTimestamp; getInvulns := λ _, [];
     getEntity := getEntity |}.

(** ** Buff handlers *)

Inductive ChangeType := changebuffstack | changedebuffstack.

(** The event [triggerChangeBuffStack] fabricates:
    [{...buff, type, timestamp, oldStacks, newStacks, stacksGained}].
    [changed] is the copy of the buff's fields taken by the spread; an
    undefined stack count makes [stacksGained] not a number, here [None]. *)
Record StackChange := {
  changed : Buff;
  change_type : ChangeType;
  change_timestamp : Z;
  oldStacks : option Z;
  newStacks : option Z;
  stacksGained : option Z
}.

(** The tracker: the entity table and the events handed to
    [parser.fabricateEvent], oldest first. *)
Record Tracker := { entities : list Entity; fabricated : list StackChange }.

Definition is_open (g : Z) (b : Buff) : Prop :=
  buff_guid b = g ∧ end_ b = None.

#[global] Instance is_open_dec g b : Decision (is_open g b) :=
  decide (buff_guid b = g ∧ end_ b = None).

Definition stack_change (b : Buff) (ts : Z) (old new : option Z) : StackChange :=
  {| changed := b;
     change_type := if isDebuff b then changedebuffstack else changebuffstack;
     change_timestamp := ts;
     oldStacks := old;
     newStacks := new;
     stacksGained := n ← new; o ← old; Some (n - o) |}.

(** The number of open buffs of ability [g] in a buff list, and the
    invariant of the specification: at most one per entity and ability. *)
Definition open_count (g : Z) (bs : list Buff) : nat :=
  length (filter (is_open g) bs).

Definition at_most_one_open (t : Tracker) : Prop :=
  ∀ e g, e ∈ entities t → (open_count g (buffs e) ≤ 1)%nat.

Definition set_buffs (e : Entity) (bs : list Buff) : Entity :=
  {| id := id e; buffs := bs |}.

Section Handlers.

Context {env : Env}.

Definition getBuffEventEntity (t : Tracker) (event : BuffEvent) : option nat :=
  if negb (byPlayer event) && negb (toPlayer event) then None
  else getEntity (entities t) event.

(** The entity object a handler works on, with its place in the table. *)
Definition resolve (t : Tracker) (event : BuffEvent) : option (nat * Entity) :=
  i ← getBuffEventEntity t event;
  e ← entities t !! i;
  Some (i, e).

Definition applyBuff (event : BuffEvent) (isDebuff : bool) (t : Tracker) : Tracker :=
  match resolve t event with
  | None => t
  | Some (i, e) =>
    let buff :=
      {| origin := event;
         start := timestamp event;
         end_ := None;
         stacks := Some 1;
         stackHistory := [ {| stacks_at := Some 1; at_timestamp := timestamp event |} ];
         isDebuff := isDebuff |} in
    {| entities := <[i := set_buffs e (buffs e ++ [buff])]> (entities t);
       fabricated := fabricated t ++ [stack_change buff (timestamp event) (Some 0) (Some 1)] |}
  end.

Definition updateBuffStack (event : BuffEvent) (t : Tracker) : Tracker :=
  match resolve t event with
  | None => t
  | Some (i, e) =>
    match list_find (is_open (guid (ability event))) (buffs e) with
    | None => t
    | Some (j, buff) =>
      let oldStacks := orElse (stacks buff) 1 in
      let buff' :=
        {| origin := origin buff;
           start := start buff;
           end_ := end_ buff;
           stacks := stack event;
           stackHistory := stackHistory buff ++
             [ {| stacks_at := stack event; at_timestamp := timestamp event |} ];
           isDebuff := Entities.isDebuff buff |} in
      {| entities := <[i := set_buffs e (<[j := buff']> (buffs e))]> (entities t);
         fabricated := fabricated t ++
           [stack_change buff' (timestamp event) (Some oldStacks) (stacks buff')] |}
    end
  end.

(** The buff [removeBuff] closes: the open one it finds, or, if there is
    none, the one it fakes from the start of the fight and pushes. *)
Definition close_buff (event : BuffEvent) (buff : Buff) : Buff :=
  {| origin := origin buff;
     start := start buff;
     end_ := Some (timestamp event);
     stacks := stacks buff;
     stackHistory := stackHistory buff ++
       [ {| stacks_at := Some 0; at_timestamp := timestamp event |} ];
     isDebuff := Entities.isDebuff buff |}.

Definition fake_buff (event : BuffEvent) (isDebuff : bool) : Buff :=
  {| origin := event;
     start := start_time;
     end_ := None;
     stacks := None;
     stackHistory := [ {| stacks_at := Some 1; at_timestamp := start_time |} ];
     isDebuff := isDebuff |}.

Definition removeBuff (event : BuffEvent) (isDebuff : bool) (t : Tracker) : Tracker :=
  match resolve t event with
  | None => t
  | Some (i, e) =>
    let '(bs, buff') :=
      match list_find (is_open (guid (ability event))) (buffs e) with
      | Some (j, buff) =>
        let buff' := close_buff event buff in (<[j := buff']> (buffs e), buff')
      | None =>
        let buff' := close_buff event (fake_buff event isDebuff) in
        (buffs e ++ [buff'], buff')
      end in
    {| entities := <[i := set_buffs e bs]> (entities t);
       fabricated := fabricated t ++
         [stack_change buff' (timestamp event) (stacks buff') (Some 0)] |}
  end.

(** The [on_*] event handlers. *)
Definition on_event (t : Tracker) (event : BuffEvent) : Tracker :=
  match type event with
  | applybuff => applyBuff event false t
  | applydebuff => applyBuff event true t
  | applybuffstack => updateBuffStack event t
  | applydebuffstack => updateBuffStack event t
  | removebuffstack => updateBuffStack event t
  | removedebuffstack => updateBuffStack event t
  | removebuff => removeBuff event false t
  | removedebuff => removeBuff event true t
  end.

Definition on_events (t : Tracker) (events : list BuffEvent) : Tracker :=
  foldl on_event t events.

(** A log in which no buff is applied to an entity that still holds an
    open buff of that ability. *)
Definition fresh_apply (t : Tracker) (event : BuffEvent) : Prop :=
  match type event with
  | applybuff | applydebuff =>
    match resolve t event with
    | Some (_, e) => open_count (guid (ability event)) (buffs e) = 0%nat
    | None => True
    end
  | _ => True
  end.

Fixpoint well_bracketed (t : Tracker) (events : list BuffEvent) : Prop :=
  match events with
  | [] => True
  | event :: rest => fresh_apply t event ∧ well_bracketed (on_event t event) rest
  end.

End Handlers.

(** What later events leave of a buff list: every buff stays where it is,
    with the event it came from, its start and its kind; its stack history
    is only added to, and a closed buff is left as it is. *)
Definition keeps_history (bs bs' : list Buff) : Prop :=
  ∀ j b, bs !! j = Some b →
    ∃ b', bs' !! j = Some b'
          ∧ origin b' = origin b ∧ start b' = start b ∧ isDebuff b' = isDebuff b
          ∧ stackHistory b `prefix_of` stackHistory b'
          ∧ (end_ b ≠ None → b' = b).

Definition keeps_entities (t t' : Tracker) : Prop :=
  id <$> entities t' = id <$> entities t
  ∧ ∀ i e, entities t !! i = Some e →
      ∃ e', entities t' !! i = Some e' ∧ keeps_history (buffs e) (buffs e').

(** The buffs of the entity at position [i] of the table. *)
Definition buffs_at (i : nat) (t : Tracker) : list Buff :=
  default [] (buffs <$> entities t !! i).

(** The buff that an application, the stack updates that follow it and the
    removal leave behind. *)
Definition stack_entry_of (event : BuffEvent) : StackEntry :=
  {| stacks_at := stack event; at_timestamp := timestamp event |}.

(** The buff that [updateBuffStack] writes in place of the open one. *)
Definition restacked (buff : Buff) (event : BuffEvent) : Buff :=
  {| origin := origin buff;
     start := start buff;
     end_ := end_ buff;
     stacks := stack event;
     stackHistory := stackHistory buff ++ [stack_entry_of event];
     isDebuff := isDebuff buff |}.

Definition lifecycle_buff (applied : BuffEvent) (isDebuff : bool)
    (updates : list BuffEvent) (removed : BuffEvent) : Buff :=
  {| origin := applied;
     start := timestamp applied;
     end_ := Some (timestamp removed);
     stacks := foldl (λ _ u, stack u) (Some 1) updates;
     stackHistory :=
       {| stacks_at := Some 1; at_timestamp := timestamp applied |}
       :: (stack_entry_of <$> updates)
       ++ [ {| stacks_at := Some 0; at_timestamp := timestamp removed |} ];
     isDebuff := isDebuff |}.

End Entities.

Module Requiescat.

(** ** The Requiescat window classifier *)

Definition TICK_AMOUNT : Z := 141.
Definition MP_THRESHOLD : Q := (8 # 10)%Q.
Definition EXPECTED : Z := 5.

Record CastEvent := { timestamp : Z; ability_guid : Z }.

(** [combatants.selected.resources] at the time of the cast. *)
Record Resources := { mp : Z; maxMP : Z }.

Record RequiescatState := { start : option Z; holySpirits : Z }.

Record RequiescatErrorResult := {
  missedHolySpirits : Z;
  missedRequiescatBuffs : Z
}.

Record Analysis := {
  requiescatState : RequiescatState;
  requiescatRotations : gmap Z (list CastEvent);
  requiescatErrorResult : RequiescatErrorResult
}.

Definition new_RequiescatState : RequiescatState :=
  {| start := None; holySpirits := 0 |}.

Definition initial : Analysis :=
  {| requiescatState := new_RequiescatState;
     requiescatRotations := ∅;
     requiescatErrorResult := {| missedHolySpirits := 0; missedRequiescatBuffs := 0 |} |}.

(** [(mp + TICK_AMOUNT) / maxMP >= MP_THRESHOLD].  The quotient is taken in
    the rationals: on the integers an MP pool holds, the comparison of the
    rounded quotient with the rounded [0.8] agrees with the exact one.
    A pool of size zero divides to [Infinity], [NaN] or [-Infinity]; only
    the first passes. *)
Definition mp_gate (r : Resources) : bool :=
  if maxMP r =? 0 then 0 <? mp r + TICK_AMOUNT
  else Qle_bool MP_THRESHOLD (inject_Z (mp r + TICK_AMOUNT) / inject_Z (maxMP r)).

(** [ACTIONS.ATTACK.id], [ACTIONS.REQUIESCAT.id], [ACTIONS.HOLY_SPIRIT.id]
    and [STATUSES.REQUIESCAT.id], from the data tables. *)
Class GameData := {
  ATTACK : Z;
  REQUIESCAT : Z;
  HOLY_SPIRIT : Z;
  STATUS_REQUIESCAT : Z
}.

Section Classifier.

Context {data : GameData}.

Definition open_window (ts : Z) (a : Analysis) : Analysis :=
  {| requiescatState := {| start := Some ts; holySpirits := holySpirits (requiescatState a) |};
     requiescatRotations := requiescatRotations a;
     requiescatErrorResult := requiescatErrorResult a |}.

Definition miss_buff (a : Analysis) : Analysis :=
  {| requiescatState := requiescatState a;
     requiescatRotations := requiescatRotations a;
     requiescatErrorResult :=
       {| missedHolySpirits := missedHolySpirits (requiescatErrorResult a);
          missedRequiescatBuffs := missedRequiescatBuffs (requiescatErrorResult a) + 1 |} |}.

(** The second half of [onCast]: what is recorded while a window is open. *)
Definition record_cast (event : CastEvent) (a : Analysis) : Analysis :=
  match start (requiescatState a) with
  | None => a
  | Some s =>
    {| requiescatState :=
         {| start := Some s;
            holySpirits :=
              if ability_guid event =? HOLY_SPIRIT
              then holySpirits (requiescatState a) + 1
              else holySpirits (requiescatState a) |};
       requiescatRotations :=
         <[s := default [] (requiescatRotations a !! s) ++ [event]]> (requiescatRotations a);
       requiescatErrorResult := requiescatErrorResult a |}
  end.

Definition onCast (res : Resources) (event : CastEvent) (a : Analysis) : Analysis :=
  let actionId := ability_guid event in
  if actionId =? ATTACK then a
  else
    let a1 :=
      if actionId =? REQUIESCAT then
        if mp_gate res then open_window (timestamp event) a else miss_buff a
      else a in
    record_cast event a1.

Definition onRemoveRequiescat (a : Analysis) : Analysis :=
  {| requiescatState := new_RequiescatState;
     requiescatRotations := requiescatRotations a;
     requiescatErrorResult :=
       {| missedHolySpirits :=
            missedHolySpirits (requiescatErrorResult a)
            + Z.max 0 (EXPECTED - holySpirits (requiescatState a));
          missedRequiescatBuffs := missedRequiescatBuffs (requiescatErrorResult a) |} |}.

(** The events the hooks of [init] listen to. *)
Inductive Event :=
  | Cast (byPlayer : bool) (res : Resources) (event : CastEvent)
  | RemoveBuff (byPlayer : bool) (abilityId : Z)
  | Complete.

(** The hooks that [init] registers.  A hook runs on the events of its type
    that pass its filter: [{by: 'player'}] asks for an event of the parsed
    player, [abilityId] for that ability.  [onComplete] only reports the
    tallies. *)
Definition dispatch (a : Analysis) (ev : Event) : Analysis :=
  match ev with
  | Cast true res event => onCast res event a
  | Cast false _ _ => a
  | RemoveBuff true abilityId =>
    if abilityId =? STATUS_REQUIESCAT then onRemoveRequiescat a else a
  | RemoveBuff false _ => a
  | Complete => a
  end.

(** The analysis after a list of events. *)
Definition run (a : Analysis) (events : list Event) : Analysis :=
  foldl dispatch a events.

(** [holySpiritCount] of [RotationTableRow], and the two flags of its cell. *)
Definition holySpiritCount (rotation : list CastEvent) : Z :=
  Z.of_nat (length (filter (λ event, ability_guid event = HOLY_SPIRIT) rotation)).

Definition cell_positive (rotation : list CastEvent) : bool :=
  holySpiritCount rotation >=? EXPECTED.

Definition cell_negative (rotation : list CastEvent) : bool :=
  holySpiritCount rotation <? EXPECTED.

(** A cast of Requiescat by the player that does not pass the gate. *)
Definition fails_gate (ev : Event) : Prop :=
  match ev with
  | Cast true res event => ability_guid event = REQUIESCAT ∧ mp_gate res = false
  | _ => False
  end.

#[global] Instance fails_gate_dec ev : Decision (fails_gate ev) :=
  match ev with
  | Cast true res event =>
    decide (ability_guid event = REQUIESCAT ∧ mp_gate res = false)
  | Cast false _ _ => right (λ H, H)
  | RemoveBuff _ _ => right (λ H, H)
  | Complete => right (λ H, H)
  end.

(** What every recorded rotation looks like: it starts with the cast of
    Requiescat that opened it, at the timestamp it is filed under, and holds
    no auto-attack; and the window that is open has one. *)
Definition rotations_ok (a : Analysis) : Prop :=
  (∀ k l, requiescatRotations a !! k = Some l →
     (∃ opener rest, l = opener :: rest
                     ∧ ability_guid opener = REQUIESCAT ∧ timestamp opener = k)
     ∧ Forall (λ event, ability_guid event ≠ ATTACK) l)
  ∧ (∀ s, start (requiescatState a) = Some s → is_Some (requiescatRotations a !! s)).

(** The counter of Holy Spirits is not negative, and zero while no window is
    open. *)
Definition counter_ok (a : Analysis) : Prop :=
  0 <= holySpirits (requiescatState a)
  ∧ (start (requiescatState a) = None → holySpirits (requiescatState a) = 0).

(** A window of the player: the cast that opens it, the casts made in it
    with the resources at the time, and the removal of the status. *)
Definition window_events (res : Resources) (opener : CastEvent)
    (casts : list (Resources * CastEvent)) : list Event :=
  Cast true res opener
  :: ((λ c, Cast true c.1 c.2) <$> casts) ++ [RemoveBuff true STATUS_REQUIESCAT].

Definition recorded (casts : list (Resources * CastEvent)) : list CastEvent :=
  filter (λ event, ability_guid event ≠ ATTACK) (snd <$> casts).

End Classifier.

End Requiescat.

(** ** Sample logs

    Concrete trackers, used to run the model. *)
Module Samples.

Import Entities.

Definition buff_event (ty : EventType) (g : Z) (src : option Z) (tgt ts : Z) : BuffEvent :=
  {| type := ty; timestamp := ts; ability := {| guid := g |};
     sourceID := src; targetID := Some tgt; stack := None |}.

(** A closed buff of status [g] on [tgt], up over [[s, e]]. *)
Definition closed_buff (g : Z) (src : option Z) (tgt s e : Z) : Buff :=
  {| origin := buff_event applybuff g src tgt s;
     start := s; end_ := Some e; stacks := Some 1;
     stackHistory := [ {| stacks_at := Some 1; at_timestamp := s |};
                       {| stacks_at := Some 0; at_timestamp := e |} ];
     isDebuff := false |}.

(** The parsed player is actor 1; entities are addressed by target id. *)
Definition by_target (es : list Entity) (event : BuffEvent) : option nat :=
  tgt ← targetID event; fst <$> list_find (λ e, id e = tgt) es.

Definition env_with (invulns : Z → list Invuln) : Env :=
  {| byPlayer := λ event, bool_decide (sourceID event = Some 1);
     toPlayer := λ event, bool_decide (targetID event = Some 1);
     start_time := 5;
     currentTimestamp := 100;
     getInvulns := invulns;
     getEntity := by_target |}.

Definition quiet : Env := env_with (λ _, []).

(** Status 7 from the player over [[0, 10]] and from an unrecorded source
    over [[5, 15]], on the same entity. *)
Definition overlapping : list Entity :=
  [ {| id := 1; buffs := [ closed_buff 7 (Some 1) 1 0 10; closed_buff 7 None 1 5 15 ] |} ].

Definition invulnerable (s e : Z) : Invuln :=
  {| inv_start := s; inv_end := e; inv_type := "invulnerable" |}.

Definition one_buff : list Entity :=
  [ {| id := 1; buffs := [ closed_buff 7 (Some 1) 1 10 20 ] |} ].

(** Entity 1 invulnerable over exactly [[10, 20]]. *)
Definition exact_cover : Env :=
  env_with (λ i, if i =? 1 then [invulnerable 10 20] else []).

(** Entity 1 invulnerable over [[13, 17]], and untargetable before. *)
Definition hole : Env :=
  env_with (λ i, if i =? 1
                 then [ {| inv_start := 0; inv_end := 9; inv_type := "untargetable" |};
                        invulnerable 13 17 ]
                 else []).

(** Entity 1 invulnerable over [[5, 25]]; entity 2 never. *)
Definition wide_cover : Env :=
  env_with (λ i, if i =? 1 then [invulnerable 5 25] else []).

Definition two_targets : list Entity :=
  [ {| id := 1; buffs := [ closed_buff 7 (Some 1) 1 10 20 ] |};
    {| id := 2; buffs := [ closed_buff 7 (Some 1) 2 10 40 ] |} ].

Definition buffs_of_first (es : list Entity) : list Buff :=
  match es with e :: _ => buffs e | [] => [] end.

Definition fresh_tracker : Tracker :=
  {| entities := [ {| id := 1; buffs := [] |} ]; fabricated := [] |}.

(** Status 7 applied twice by the player to entity 1, never removed. *)
Definition double_apply : list BuffEvent :=
  [ buff_event applybuff 7 (Some 1) 1 10; buff_event applybuff 7 (Some 1) 1 20 ].

(** Status 7 applied, stacked, removed and applied again. *)
Definition bracketed : list BuffEvent :=
  [ buff_event applybuff 7 (Some 1) 1 10;
    {| type := applybuffstack; timestamp := 12; ability := {| guid := 7 |};
       sourceID := Some 1; targetID := Some 1; stack := Some 2 |};
    buff_event removebuff 7 (Some 1) 1 20;
    buff_event applybuff 7 (Some 1) 1 30 ].

(** The removal of a status the tracker has not seen applied, and a stack
    update for it. *)
Definition late_removal : BuffEvent := buff_event removebuff 7 (Some 1) 1 50.

Definition stray_stack : BuffEvent :=
  {| type := applybuffstack; timestamp := 30; ability := {| guid := 7 |};
     sourceID := Some 1; targetID := Some 1; stack := Some 2 |}.

Definition paladin : Requiescat.GameData :=
  {| Requiescat.ATTACK := 7;
     Requiescat.REQUIESCAT := 7383;
     Requiescat.HOLY_SPIRIT := 7384;
     Requiescat.STATUS_REQUIESCAT := 1368 |}.

Definition requiescat_cast : Requiescat.CastEvent :=
  {| Requiescat.timestamp := 100; Requiescat.ability_guid := 7383 |}.

(** A window in which three casts of Holy Spirit have been counted. *)
Definition three_spirits : Requiescat.Analysis :=
  {| Requiescat.requiescatState :=
       {| Requiescat.start := Some 100; Requiescat.holySpirits := 3 |};
     Requiescat.requiescatRotations := ∅;
     Requiescat.requiescatErrorResult :=
       {| Requiescat.missedHolySpirits := 0; Requiescat.missedRequiescatBuffs := 0 |} |}.

(** Entity 1 invulnerable after, over the start of, over the end of the
    buff of [one_buff], and over an interval that ends before it starts. *)
Definition late_invuln : Env :=
  env_with (λ i, if i =? 1 then [invulnerable 30 40] else []).

Definition start_invuln : Env :=
  env_with (λ i, if i =? 1 then [invulnerable 5 15] else []).

Definition end_invuln : Env :=
  env_with (λ i, if i =? 1 then [invulnerable 15 25] else []).

Definition reversed_invuln : Env :=
  env_with (λ i, if i =? 1 then [invulnerable 17 13] else []).

(** Status 7 three times in a row on entity 1. *)
Definition successive : list Entity :=
  [ {| id := 1;
       buffs := [ closed_buff 7 (Some 1) 1 0 10; closed_buff 7 (Some 1) 1 10 25;
                  closed_buff 7 (Some 1) 1 30 40 ] |} ].

(** Status 7 on entity 1 since time 10, not removed yet. *)
Definition open_buff : Buff :=
  {| origin := buff_event applybuff 7 (Some 1) 1 10;
     start := 10; end_ := None; stacks := Some 1;
     stackHistory := [ {| stacks_at := Some 1; at_timestamp := 10 |} ];
     isDebuff := false |}.

Definition still_up : list Entity := [ {| id := 1; buffs := [open_buff] |} ].

(** A buff of actor 2 on actor 3. *)
Definition bystander : BuffEvent := buff_event applybuff 7 (Some 2) 3 10.

(** The events of a whole life of status 7 on entity 1. *)
Definition applied_at_10 : BuffEvent := buff_event applybuff 7 (Some 1) 1 10.
Definition stacked_at_12 : BuffEvent :=
  {| type := applybuffstack; timestamp := 12; ability := {| guid := 7 |};
     sourceID := Some 1; targetID := Some 1; stack := Some 2 |}.
Definition removed_at_20 : BuffEvent := buff_event removebuff 7 (Some 1) 1 20.

(** Casts of the paladin: two Holy Spirits, an auto-attack and another
    action, at full MP; and a day of events around two casts of Requiescat,
    the first at 70% MP. *)
Definition full_mp : Requiescat.Resources :=
  {| Requiescat.mp := 10000; Requiescat.maxMP := 10000 |}.

Definition cast_of (g ts : Z) : Requiescat.CastEvent :=
  {| Requiescat.timestamp := ts; Requiescat.ability_guid := g |}.

Definition window_casts : list (Requiescat.Resources * Requiescat.CastEvent) :=
  [ (full_mp, cast_of 7384 101); (full_mp, cast_of 7384 102);
    (full_mp, cast_of 7 103); (full_mp, cast_of 16 104) ].

Definition two_requiescats : list Requiescat.Event :=
  [ Requiescat.Cast true {| Requiescat.mp := 7000; Requiescat.maxMP := 10000 |}
      (cast_of 7383 50);
    Requiescat.Cast true full_mp (cast_of 7383 100);
    Requiescat.Cast false {| Requiescat.mp := 1; Requiescat.maxMP := 10000 |}
      (cast_of 7383 101);
    Requiescat.RemoveBuff true 1368 ].

End Samples.

(** * Properties *)

(** Case analysis on the comparisons of timestamps a goal tests. *)
Ltac zcases :=
  rewrite ?Z.gtb_ltb in *;
  repeat match goal with
  | |- context [?a =? ?b] => destruct (Z.eqb_spec a b); try lia
  | |- context [?a <? ?b] => destruct (Z.ltb_spec a b); try lia
  | |- context [?a <=? ?b] => destruct (Z.leb_spec a b); try lia
  end.

Ltac zsolve := repeat (zcases; cbn).

(** ** The sort of the faked events *)

Section SortFacts.

Import Entities.

Lemma insert_event_perm x l : insert_event x l ≡ₚ x :: l.
Proof.
  induction l as [|y l IH]; [done|]. cbn.
  destruct (fe_timestamp x <=? fe_timestamp y); [done|].
  rewrite IH. apply Permutation_swap.
Qed.

Lemma sort_events_perm l : sort_events l ≡ₚ l.
Proof.
  induction l as [|x l IH]; [done|]. cbn.
  rewrite insert_event_perm. by f_equiv.
Qed.

Lemma insert_event_sorted x l :
  Sorted by_timestamp l → Sorted by_timestamp (insert_event x l).
Proof.
  induction 1 as [|y l Hl IH Hhd]; cbn; [by repeat constructor|].
  destruct (Z.leb_spec (fe_timestamp x) (fe_timestamp y)) as [Hle|Hgt].
  - by repeat constructor.
  - constructor; [exact IH|].
    destruct Hhd as [|z l Hyz]; cbn.
    + constructor. unfold by_timestamp. lia.
    + destruct (fe_timestamp x <=? fe_timestamp z); constructor;
        unfold by_timestamp in *; lia.
Qed.

Lemma sort_events_sorted l : Sorted by_timestamp (sort_events l).
Proof.
  induction l as [|x l IH]; cbn; [constructor | by apply insert_event_sorted].
Qed.

(** Events of equal timestamp keep the order they were pushed in. *)
Lemma insert_event_stable x l :
  Forall (λ y, fe_timestamp x <= fe_timestamp y) l → insert_event x l = x :: l.
Proof.
  destruct 1 as [|y l Hy _]; [done|]. cbn.
  by destruct (Z.leb_spec (fe_timestamp x) (fe_timestamp y)); [|lia].
Qed.

End SortFacts.

(** ** The subtraction loop *)

Section LoopFacts.

Import Entities.

(** More fuel does not change the result of a loop that has finished. *)
Lemma split_ranges_fuel fuel fuel' inv i st r :
  split_ranges fuel inv i st = Some r → (fuel ≤ fuel')%nat →
  split_ranges fuel' inv i st = Some r.
Proof.
  revert fuel' i st. induction fuel as [|fuel IH]; intros fuel' i st Hr Hle; [done|].
  destruct fuel' as [|fuel']; [lia|]. cbn in *.
  destruct (st.2 !! i); [|done].
  repeat case_match; apply IH; (done || lia).
Qed.

(** The loop over a list of [n] ranges runs at least [n - i + 1] rounds. *)
Lemma split_ranges_rounds fuel inv i st r :
  split_ranges fuel inv i st = Some r → (length st.2 - i < fuel)%nat.
Proof.
  revert i st. induction fuel as [|fuel IH]; intros i st Hr; [done|]. cbn in Hr.
  destruct (st.2 !! i) as [x|] eqn:Hi.
  - apply lookup_lt_Some in Hi.
    assert (Hlen : ∀ st', split_ranges fuel inv (S i) st' = Some r →
                          (length st.2 ≤ length st'.2)%nat → (length st.2 - i < S fuel)%nat).
    { intros st' Hst' Hle. apply IH in Hst'. lia. }
    repeat case_match; eapply Hlen; try eassumption.
    + destruct x; cbn; rewrite ?length_insert; lia.
    + destruct x; cbn; rewrite ?length_insert; lia.
    + cbn. unfold splice2. rewrite !length_app, length_take, length_drop. cbn. lia.
    + lia.
  - apply lookup_ge_None in Hi. lia.
Qed.

Lemma splice2_lookup_second {A} (i : nat) (x y : A) (l : list A) :
  (i < length l)%nat → splice2 i x y l !! S i = Some y.
Proof.
  intros Hi. unfold splice2.
  rewrite lookup_app_r by (rewrite length_take; lia).
  rewrite length_take. by replace (S i - i `min` length l)%nat with 1%nat by lia.
Qed.

(** The loop need not finish.  On an invuln whose end lies before its start,
    the second piece of a split is split again, round after round. *)
Lemma split_ranges_reversed_invuln fuel inv e : ∀ i st,
  inv_end inv < inv_start inv → inv_start inv < e →
  st.2 !! i = Some (Fresh {| r_start := inv_end inv; r_end := Some e |}) →
  split_ranges fuel inv i st = None.
Proof.
  induction fuel as [|fuel IH]; intros i st Hrev He Hi; [done|].
  cbn. rewrite Hi. cbn. zsolve. apply IH; [done..|]. cbn.
  apply splice2_lookup_second. by eapply lookup_lt_Some.
Qed.

Lemma subtract_reversed_invuln fuel b inv e :
  end_ b = Some e →
  start b < inv_end inv → inv_end inv < inv_start inv → inv_start inv < e →
  subtract_invulns fuel [inv] (b, [TheBuff]) = None.
Proof.
  intros Hend Hlo Hrev Hhi. cbn. unfold apply_invuln. cbn. rewrite Hend. cbn. zsolve.
  destruct fuel as [|fuel]; [done|]. cbn. rewrite Hend. cbn. zsolve.
  by rewrite (split_ranges_reversed_invuln fuel inv e).
Qed.

End LoopFacts.

(** ** The reduction of sorted events *)

Section SweepFacts.

Import Entities.

(** On a balanced list the reduction adds up the time during which a buff
    is up. *)
Lemma sweep_covered l : ∀ a s u last,
  0 <= a → balanced a l → (0 < a → is_Some s) →
  uptime (foldl sweep_step {| active := a; sweep_start := s; uptime := u |} l)
  = u + (if 0 <? a then last - toNum s else 0) + covered a last l.
Proof.
  induction l as [|ev l IH]; intros a s u last Ha Hbal Hs.
  - cbn in *. subst a. cbn. lia.
  - destruct Hbal as [Hnn Hbal]. cbn [foldl covered].
    unfold sweep_step at 2. unfold delta in *. destruct (fe_type ev); cbn [active sweep_start uptime].
    + rewrite (IH _ _ _ (fe_timestamp ev)); [|lia|done|].
      2:{ intros _. destruct (Z.eqb_spec a 0); [done | apply Hs; lia]. }
      destruct (Z.eqb_spec a 0); zcases; cbn; lia.
    + replace (a + -1) with (a - 1) in * by lia.
      rewrite (IH _ _ _ (fe_timestamp ev)); [|lia|done|].
      2:{ intros ?. apply Hs. lia. }
      zcases; cbn; lia.
Qed.

Lemma covered_nonneg l : ∀ a last, sorted_from last l → 0 <= covered a last l.
Proof.
  induction l as [|ev l IH]; intros a last Hs; cbn; [lia|].
  destruct Hs as [Hle Hs]. specialize (IH (a + delta ev) _ Hs). zcases; lia.
Qed.

Lemma covered_idle l last last' : covered 0 last l = covered 0 last' l.
Proof. by destruct l. Qed.

Lemma insert_remove l : ∀ a last e,
  0 <= a → balanced a l → sorted_from last l → last <= e →
  balanced (a + 1) (insert_event (remove_at e) l)
  ∧ sorted_from last (insert_event (remove_at e) l)
  ∧ covered a last l <= covered (a + 1) last (insert_event (remove_at e) l)
  ∧ e - last <= covered (a + 1) last (insert_event (remove_at e) l).
Proof.
  induction l as [|y l IH]; intros a last e Ha Hbal Hs Hle.
  - cbn in *. subst a. cbn. repeat split; zcases; lia.
  - destruct Hbal as [Hnn Hbal]. destruct Hs as [Hy Hs]. cbn [insert_event fe_timestamp remove_at].
    destruct (Z.leb_spec e (fe_timestamp y)) as [Hey|Hey].
    + pose proof (covered_nonneg l (a + delta y) _ Hs) as Hpos.
      cbn. replace (a + 1 + -1) with a by lia.
      repeat split; try done; try lia; zcases; lia.
    + destruct (IH (a + delta y) (fe_timestamp y) e) as (Hb' & Hs' & Hc1 & Hc2); [lia|done..|lia|].
      cbn [balanced sorted_from covered].
      replace (a + 1 + delta y) with (a + delta y + 1) by lia.
      repeat split; try done; try lia; zcases; lia.
Qed.

Lemma insert_pair l : ∀ a last s e,
  0 <= a → balanced a l → sorted_from last l → last <= s → s <= e →
  balanced a (insert_event (apply_at s) (insert_event (remove_at e) l))
  ∧ sorted_from last (insert_event (apply_at s) (insert_event (remove_at e) l))
  ∧ covered a last l <= covered a last (insert_event (apply_at s) (insert_event (remove_at e) l))
  ∧ e - s <= covered a last (insert_event (apply_at s) (insert_event (remove_at e) l)).
Proof.
  induction l as [|y l IH]; intros a last s e Ha Hbal Hs Hls Hse.
  - cbn in *. subst a. zcases. cbn. repeat split; zcases; lia.
  - destruct Hbal as [Hnn Hbal]. destruct Hs as [Hy Hs]. cbn [insert_event fe_timestamp remove_at].
    destruct (Z.leb_spec e (fe_timestamp y)) as [Hey|Hey].
    + pose proof (covered_nonneg l (a + delta y) _ Hs) as Hpos.
      cbn. zcases; cbn; replace (a + 1 + -1) with a by lia;
        (repeat split; try done; try lia); zcases; lia.
    + cbn [insert_event fe_timestamp apply_at].
      destruct (Z.leb_spec s (fe_timestamp y)) as [Hsy|Hsy].
      * destruct (insert_remove l (a + delta y) (fe_timestamp y) e)
          as (Hb' & Hs' & Hc1 & Hc2); [lia|done..|lia|].
        cbn. replace (a + 1 + delta y) with (a + delta y + 1) by lia.
        repeat split; try done; try lia; zcases; lia.
      * destruct (IH (a + delta y) (fe_timestamp y) s e)
          as (Hb' & Hs' & Hc1 & Hc2); [lia|done..|lia|lia|].
        cbn [balanced sorted_from covered].
        repeat split; try done; try lia; zcases; lia.
Qed.

Lemma lower_bound (ivs : list (Z * Z)) : ∃ lo, Forall (λ iv, lo <= iv.1) ivs.
Proof.
  induction ivs as [|iv ivs [lo IH]]; [by exists 0|].
  exists (Z.min lo iv.1). constructor; [lia|].
  eapply Forall_impl; [exact IH|]. intros ? ?; cbn in *. lia.
Qed.

Lemma sort_intervals ivs :
  Forall (λ iv, iv.1 <= iv.2) ivs →
  balanced 0 (sort_events (interval_events ivs))
  ∧ (∀ lo, Forall (λ iv, lo <= iv.1) ivs → sorted_from lo (sort_events (interval_events ivs)))
  ∧ Forall (λ iv, iv.2 - iv.1 <= covered 0 0 (sort_events (interval_events ivs))) ivs.
Proof.
  induction 1 as [|[s e] ivs Hse _ (Hbal & Hsorted & Hcov)]; [done|]. cbn in Hse.
  change (sort_events (interval_events ((s, e) :: ivs)))
    with (insert_event (apply_at s) (insert_event (remove_at e) (sort_events (interval_events ivs)))).
  split; [|split].
  - destruct (lower_bound ((s, e) :: ivs)) as [lo Hlo]. inversion Hlo; subst.
    by apply (insert_pair _ 0 lo s e); [lia|done|apply Hsorted|..].
  - intros lo Hlo. inversion Hlo; subst.
    by apply (insert_pair _ 0 lo s e); [lia|done|apply Hsorted|..].
  - destruct (lower_bound ((s, e) :: ivs)) as [lo Hlo]. inversion Hlo; subst. cbn in *.
    destruct (insert_pair (sort_events (interval_events ivs)) 0 lo s e)
      as (_ & _ & Hc1 & Hc2); [lia|done|by apply Hsorted|done..|].
    constructor.
    + cbn. by rewrite (covered_idle _ 0 lo).
    + eapply Forall_impl; [exact Hcov|]. intros iv Hiv. cbn in Hiv.
      rewrite (covered_idle _ 0 lo), (covered_idle _ 0 lo) in *. lia.
Qed.

(** The reduction of the sorted events of well-formed intervals is at least
    the length of each of them. *)
Lemma reduce_events_covers ivs iv :
  Forall (λ iv, iv.1 <= iv.2) ivs → iv ∈ ivs →
  iv.2 - iv.1 <= reduce_events (sort_events (interval_events ivs)).
Proof.
  intros Hwf Hin. destruct (sort_intervals ivs Hwf) as (Hbal & _ & Hcov).
  unfold reduce_events. rewrite (sweep_covered _ 0 None 0 0); [|lia|done|lia].
  cbn. rewrite Forall_forall in Hcov. by apply Hcov.
Qed.
End SweepFacts.

(** ** getStatusUptime where no invuln interferes *)

Section UptimeFacts.

Import Entities.

Context {env : Env}.

Lemma visit_buff_no_match fuel invulns statusId sourceId b :
  buff_matches statusId sourceId b = false →
  visit_buff fuel invulns statusId sourceId b = Some (b, []).
Proof. intros Hb. unfold visit_buff. by rewrite Hb. Qed.

Lemma visit_buff_no_invulns fuel statusId sourceId b :
  buff_matches statusId sourceId b = true →
  visit_buff fuel [] statusId sourceId b = Some (b, buff_events b).
Proof. intros Hb. unfold visit_buff. by rewrite Hb. Qed.

Lemma visit_buffs_untouched fuel invulns statusId sourceId bs :
  invulns = [] ∨ Forall (λ b, buff_matches statusId sourceId b = false) bs →
  visit_buffs fuel invulns statusId sourceId bs
  = Some (bs, flat_map buff_events (matching statusId sourceId bs)).
Proof.
  intros Hbs. induction bs as [|b bs IH]; [done|].
  assert (Hrest : invulns = [] ∨ Forall (λ b, buff_matches statusId sourceId b = false) bs).
  { destruct Hbs as [Hbs|Hbs]; [by left | right; by inversion Hbs]. }
  specialize (IH Hrest). cbn [visit_buffs]. unfold matching in *.
  destruct (buff_matches statusId sourceId b) eqn:Hb.
  - destruct Hbs as [->|Hbs]; [|inversion Hbs; congruence].
    rewrite visit_buff_no_invulns by done. rewrite IH.
    by rewrite filter_cons_True.
  - rewrite visit_buff_no_match by done. rewrite IH.
    by rewrite filter_cons_False by congruence.
Qed.

Lemma visit_entities_untouched fuel statusId sourceId es :
  Forall (untouched statusId sourceId) es →
  visit_entities fuel statusId sourceId es
  = Some (es, flat_map buff_events (matching statusId sourceId (flat_map buffs es))).
Proof.
  induction 1 as [|e es He _ IH]; [done|].
  cbn [visit_entities]. unfold visit_entity.
  rewrite visit_buffs_untouched by exact He. rewrite IH. cbn.
  unfold matching. rewrite filter_app, flat_map_app. by destruct e.
Qed.

(** Where no selected buff meets an invuln, the call changes nothing and
    reduces the events of the selected buffs, in table order. *)
Lemma getStatusUptime_untouched fuel statusId sourceId es :
  Forall (untouched statusId sourceId) es →
  getStatusUptime fuel es statusId sourceId
  = Some (reduce_events (sort_events
            (flat_map buff_events (matching statusId sourceId (flat_map buffs es)))), es).
Proof.
  intros Hes. unfold getStatusUptime. by rewrite visit_entities_untouched.
Qed.

Lemma matching_none statusId sourceId (es : list Entity) :
  Forall (λ e, Forall (λ b, buff_matches statusId sourceId b = false) (buffs e)) es →
  matching statusId sourceId (flat_map buffs es) = [].
Proof.
  induction 1 as [|e es He _ IH]; [done|]. cbn [flat_map]. unfold matching in *.
  rewrite filter_app, IH, app_nil_r.
  induction He as [|b bs Hb _ IHb]; [done|]. by rewrite filter_cons_False by congruence.
Qed.

(** C1. Two selected buffs whose intervals overlap, with no invulnerability
    on any entity: [getStatusUptime] returns the length of the union of the
    two intervals, so the overlapped region is counted once; it does so on
    any fuel and leaves the tracker as it was.  The ends are closed and not
    the falsy timestamp 0, for which the code reads the current time. *)
Theorem overlapping_buffs_counted_once fuel es statusId sourceId A B a_end b_end :
  Forall (λ e, invulnerable_of (id e) = []) es →
  matching statusId sourceId (flat_map buffs es) = [A; B] →
  end_ A = Some a_end → end_ B = Some b_end →
  a_end ≠ 0 → b_end ≠ 0 →
  start A <= a_end → start B <= b_end →
  start A <= b_end → start B <= a_end →
  getStatusUptime fuel es statusId sourceId
  = Some (Z.max a_end b_end - Z.min (start A) (start B), es).
Proof.
  intros Hinv Hm HA HB Ha0 Hb0 HAle HBle Hov1 Hov2.
  rewrite getStatusUptime_untouched.
  2:{ eapply Forall_impl; [exact Hinv|]. intros e He. by left. }
  rewrite Hm. do 2 f_equal.
  unfold buff_events, range_events. cbn. rewrite HA, HB. cbn.
  unfold reduce_events. zsolve; lia.
Qed.

(** C3. A closed selected buff and a single invulnerability interval of kind
    invulnerable strictly inside it: the subtraction step leaves the two
    ranges around the hole, and the uptime of the buff is its length less
    the length of the hole.  Three rounds of the loop are enough. *)
Theorem invuln_inside_splits fuel e b inv b_end statusId sourceId :
  (3 ≤ fuel)%nat →
  buffs e = [b] →
  invulnerable_of (id e) = [inv] →
  buff_matches statusId sourceId b = true →
  end_ b = Some b_end →
  start b < inv_start inv → inv_start inv <= inv_end inv → inv_end inv < b_end →
  inv_start inv ≠ 0 → b_end ≠ 0 →
  subtract_invulns fuel [inv] (b, [TheBuff])
  = Some (b, [ Fresh {| r_start := start b; r_end := Some (inv_start inv) |};
               Fresh {| r_start := inv_end inv; r_end := Some b_end |} ])
  ∧ getStatusUptime fuel [e] statusId sourceId
    = Some ((b_end - start b) - (inv_end inv - inv_start inv), [e]).
Proof.
  intros Hfuel Hbs Hinv Hm Hend Hlo Hwf Hhi Hs0 He0.
  destruct fuel as [|[|[|fuel]]]; try lia.
  assert (Hsub : subtract_invulns (S (S (S fuel))) [inv] (b, [TheBuff])
    = Some (b, [ Fresh {| r_start := start b; r_end := Some (inv_start inv) |};
                 Fresh {| r_start := inv_end inv; r_end := Some b_end |} ])).
  { cbn. unfold apply_invuln. cbn. rewrite Hend. cbn. zsolve; done. }
  split; [exact Hsub|].
  unfold getStatusUptime. cbn [visit_entities mbind option_bind].
  unfold visit_entity. rewrite Hinv, Hbs.
  cbn [visit_buffs]. unfold visit_buff. rewrite Hm, Hsub. cbn.
  unfold reduce_events. destruct e; cbn in *; subst.
  zsolve; do 2 f_equal; lia.
Qed.

End UptimeFacts.

(** ** Invulns that cover a buff *)

Section CoverFacts.

Import Entities.

Context {env : Env}.

(** X8. An invuln that reaches beyond the buff on at least one side leaves a
    lone buff no uptime. *)
Lemma covering_invuln_no_uptime fuel e b inv b_end statusId sourceId :
  (2 ≤ fuel)%nat →
  buffs e = [b] →
  invulnerable_of (id e) = [inv] →
  buff_matches statusId sourceId b = true →
  end_ b = Some b_end →
  start b <= b_end →
  inv_start inv <= start b → b_end <= inv_end inv →
  inv_start inv < start b ∨ b_end < inv_end inv →
  start b ≠ 0 → b_end ≠ 0 →
  fst <$> getStatusUptime fuel [e] statusId sourceId = Some 0.
Proof.
  intros Hfuel Hbs Hinv Hm Hend Hwf Hlo Hhi Hstrict Hs0 He0.
  destruct fuel as [|[|fuel]]; try lia.
  unfold getStatusUptime. cbn [visit_entities mbind option_bind].
  unfold visit_entity. rewrite Hinv, Hbs.
  cbn [visit_buffs]. unfold visit_buff. rewrite Hm.
  cbn. unfold apply_invuln. cbn. rewrite Hend. cbn.
  unfold reduce_events.
  repeat (cbn; rewrite ?Hend; unfold orElse; zcases); try done; f_equal; lia.
Qed.

(** C2. An invuln over exactly the interval of a buff, [[10, 20]] on both:
    no branch of the loop applies to it and the buff keeps its full uptime. *)
Theorem exact_cover_not_subtracted :
  getStatusUptime (env := Samples.exact_cover) 2 Samples.one_buff 7 1
  = Some (10, Samples.one_buff).
Proof. reflexivity. Qed.

(** C9. Entity 1 holds status 7 over [[10, 20]] and is invulnerable over
    [[5, 25]]; entity 2 holds it over [[10, 40]].  The first query writes the
    end of the invuln into the start of the first buff and answers 25; the
    second, on the tracker the first has left, writes its end and answers 15. *)
Theorem getStatusUptime_writes_to_buffs :
  ∃ es1 es2,
    getStatusUptime (env := Samples.wide_cover) 2 Samples.two_targets 7 1 = Some (25, es1)
    ∧ getStatusUptime (env := Samples.wide_cover) 2 es1 7 1 = Some (15, es2)
    ∧ (start <$> (es1 !! 0%nat ≫= λ e, buffs e !! 0%nat)) = Some 25
    ∧ (start <$> (Samples.two_targets !! 0%nat ≫= λ e, buffs e !! 0%nat)) = Some 10
    ∧ (end_ <$> (es2 !! 0%nat ≫= λ e, buffs e !! 0%nat)) = Some (Some 5)
    ∧ es1 ≠ Samples.two_targets.
Proof.
  eexists _, _. split; [reflexivity|]. split; [reflexivity|]. done.
Qed.

End CoverFacts.

(** ** The buff handlers *)

Section OpenCount.

Import Entities.

Lemma open_count_app g bs1 bs2 :
  open_count g (bs1 ++ bs2) = (open_count g bs1 + open_count g bs2)%nat.
Proof. unfold open_count. by rewrite filter_app, length_app. Qed.

(** Writing to a buff in place adds no open buff unless the write opens one. *)
Lemma open_count_insert_le g bs j b b' :
  bs !! j = Some b →
  (is_open g b' → is_open g b) →
  (open_count g (<[j := b']> bs) ≤ open_count g bs)%nat.
Proof.
  intros Hj Himp. revert j Hj. induction bs as [|x bs IH]; intros [|j] Hj; try done.
  - cbn in Hj. injection Hj as ->. change (<[0%nat:=b']> (b :: bs)) with (b' :: bs).
    unfold open_count. rewrite !filter_cons.
    destruct (decide (is_open g b')), (decide (is_open g b)); cbn; try lia. tauto.
  - cbn in Hj. change (<[S j:=b']> (x :: bs)) with (x :: <[j:=b']> bs).
    unfold open_count in *. rewrite !filter_cons. specialize (IH j Hj).
    destruct (decide (is_open g x)); cbn; lia.
Qed.

Lemma elem_of_insert_entity (es : list Entity) i e' e'' :
  e'' ∈ <[i := e']> es → e'' = e' ∨ e'' ∈ es.
Proof.
  intros Hin. apply list_elem_of_lookup in Hin as [k Hk].
  destruct (decide (i = k)) as [->|Hne].
  - destruct (decide (k < length es)%nat).
    + rewrite list_lookup_insert_eq in Hk by done. left. congruence.
    + rewrite list_insert_ge in Hk by lia. right. by eapply list_elem_of_lookup_2.
  - rewrite list_lookup_insert_ne in Hk by done. right. by eapply list_elem_of_lookup_2.
Qed.

End OpenCount.

Section HandlerFacts.

Import Entities.

Context {env : Env}.

Lemma resolve_lookup t event i e :
  resolve t event = Some (i, e) → entities t !! i = Some e.
Proof.
  unfold resolve. intros Hr.
  destruct (getBuffEventEntity t event) as [k|]; [|done]. cbn in Hr.
  destruct (entities t !! k) eqn:Hk; cbn in Hr; [|done]. by injection Hr as <- <-.
Qed.

Lemma invariant_insert t i e bs fab :
  at_most_one_open t →
  entities t !! i = Some e →
  (∀ g, open_count g bs ≤ 1)%nat →
  at_most_one_open {| entities := <[i := set_buffs e bs]> (entities t); fabricated := fab |}.
Proof.
  intros Hinv Hi Hbs e' g He'. cbn in He'.
  apply elem_of_insert_entity in He' as [->|He']; [apply Hbs | by apply Hinv].
Qed.

(** [applyBuff] pushes an open buff whatever the entity holds: the invariant
    survives it when the entity held no open buff of that ability. *)
Lemma applyBuff_invariant t event isDebuff :
  at_most_one_open t →
  match resolve t event with
  | Some (_, e) => open_count (guid (ability event)) (buffs e) = 0%nat
  | None => True
  end →
  at_most_one_open (applyBuff event isDebuff t).
Proof.
  intros Hinv Hfresh. unfold applyBuff.
  destruct (resolve t event) as [[i e]|] eqn:Hr; [|done].
  pose proof (resolve_lookup _ _ _ _ Hr) as Hi.
  apply invariant_insert; [done..|]. intros g.
  rewrite open_count_app. unfold open_count at 2. rewrite filter_cons, filter_nil.
  assert (He : (open_count g (buffs e) ≤ 1)%nat).
  { apply Hinv. by eapply list_elem_of_lookup_2. }
  destruct (decide _) as [[Hg _]|_]; cbn; [|lia].
  unfold buff_guid in Hg. cbn in Hg. subst g. lia.
Qed.

Lemma updateBuffStack_invariant t event :
  at_most_one_open t → at_most_one_open (updateBuffStack event t).
Proof.
  intros Hinv. unfold updateBuffStack.
  destruct (resolve t event) as [[i e]|] eqn:Hr; [|done].
  pose proof (resolve_lookup _ _ _ _ Hr) as Hi.
  destruct (list_find _ _) as [[j buff]|] eqn:Hf; [|done].
  apply list_find_Some in Hf as (Hj & _ & _).
  apply invariant_insert; [done..|]. intros g.
  etrans; [eapply open_count_insert_le; [exact Hj|]|].
  - unfold is_open, buff_guid. cbn. tauto.
  - apply Hinv. by eapply list_elem_of_lookup_2.
Qed.

Lemma removeBuff_invariant t event isDebuff :
  at_most_one_open t → at_most_one_open (removeBuff event isDebuff t).
Proof.
  intros Hinv. unfold removeBuff.
  destruct (resolve t event) as [[i e]|] eqn:Hr; [|done].
  pose proof (resolve_lookup _ _ _ _ Hr) as Hi.
  assert (He : ∀ g, (open_count g (buffs e) ≤ 1)%nat).
  { intros g. apply Hinv. by eapply list_elem_of_lookup_2. }
  destruct (list_find _ _) as [[j buff]|] eqn:Hf.
  - apply list_find_Some in Hf as (Hj & _ & _).
    apply invariant_insert; [done..|]. intros g.
    etrans; [eapply open_count_insert_le; [exact Hj|]|apply He].
    unfold is_open. cbn. by intros [_ ?].
  - apply invariant_insert; [done..|]. intros g.
    rewrite open_count_app. unfold open_count at 2. rewrite filter_cons, filter_nil.
    destruct (decide _) as [[_ Hg]|_]; [done|]. cbn. specialize (He g). lia.
Qed.

Lemma on_event_invariant t event :
  at_most_one_open t → fresh_apply t event → at_most_one_open (on_event t event).
Proof.
  intros Hinv Hfresh. unfold on_event, fresh_apply in *.
  destruct (type event);
    auto using applyBuff_invariant, updateBuffStack_invariant, removeBuff_invariant.
Qed.

(** C4, as amended.  On a log that applies no buff to an entity that still
    holds an open buff of that ability, a tracker with at most one open buff
    per entity and ability keeps at most one after each event. *)
Theorem one_open_buff_on_bracketed_logs t events :
  at_most_one_open t →
  well_bracketed t events →
  ∀ n, at_most_one_open (on_events t (take n events)).
Proof.
  revert t. induction events as [|event rest IH]; intros t Hinv Hwb n.
  - by rewrite take_nil.
  - destruct n as [|n]; [done|]. destruct Hwb as [Hfresh Hwb]. cbn.
    apply IH; [by apply on_event_invariant | done].
Qed.

(** C6. A stack update for an entity that resolves and holds no open buff
    of the ability leaves the tracker as it is: buff lists, stack counts,
    stack histories and the fabricated events. *)
Theorem updateBuffStack_without_open_buff t event i e :
  resolve t event = Some (i, e) →
  Forall (λ b, ¬ is_open (guid (ability event)) b) (buffs e) →
  updateBuffStack event t = t
  ∧ match type event with
    | applybuffstack | applydebuffstack | removebuffstack | removedebuffstack =>
      on_event t event = t
    | _ => True
    end.
Proof.
  intros Hr Hnone.
  assert (Hu : updateBuffStack event t = t).
  { unfold updateBuffStack. rewrite Hr.
    apply (list_find_None (is_open (guid (ability event)))) in Hnone. by rewrite Hnone. }
  split; [done|]. unfold on_event. by destruct (type event).
Qed.

End HandlerFacts.

(** ** Removal of a buff the tracker has not seen applied *)

Section RemoveFacts.

Import Entities.

Context {env : Env}.

Lemma buff_events_intervals bs :
  flat_map buff_events bs = interval_events (buff_interval <$> bs).
Proof. induction bs as [|b bs IH]; [done|]. cbn. by rewrite IH. Qed.

(** The selected buffs of a tracker before and after one entity has a buff
    pushed. *)
Lemma matching_push statusId sourceId (es : list Entity) i e b :
  es !! i = Some e →
  ∃ P Q,
    matching statusId sourceId (flat_map buffs es) = P ++ Q
    ∧ matching statusId sourceId
        (flat_map buffs (<[i := set_buffs e (buffs e ++ [b])]> es))
      = P ++ matching statusId sourceId [b] ++ Q.
Proof.
  intros Hi.
  exists (matching statusId sourceId (flat_map buffs (take i es))
          ++ matching statusId sourceId (buffs e)),
         (matching statusId sourceId (flat_map buffs (drop (S i) es))).
  split.
  - rewrite <- (take_drop_middle es i e Hi) at 1.
    rewrite flat_map_app. cbn [flat_map]. unfold matching. by rewrite !filter_app, app_assoc.
  - rewrite insert_take_drop by (by eapply lookup_lt_Some).
    rewrite flat_map_app. cbn [flat_map set_buffs buffs]. unfold matching.
    by rewrite !filter_app, !app_assoc.
Qed.

(** C5. A removal for an entity that resolves and holds no open buff of the
    ability pushes a buff that starts at the start of the fight, with a stack
    history that begins with one stack at that time, and closes it at the
    time of the event.  A later query for the status, where no invuln
    interferes and every selected buff starts before it ends, returns at
    least the time from the start of the fight to the removal, and exactly
    that time when the tracker held no other selected buff. *)
Theorem removeBuff_without_open_buff t event isDebuff i e :
  let ts := timestamp event in
  let closed :=
    {| origin := event; start := start_time; end_ := Some ts; stacks := None;
       stackHistory := [ {| stacks_at := Some 1; at_timestamp := start_time |};
                         {| stacks_at := Some 0; at_timestamp := ts |} ];
       isDebuff := isDebuff |} in
  let t' := removeBuff event isDebuff t in
  resolve t event = Some (i, e) →
  Forall (λ b, ¬ is_open (guid (ability event)) b) (buffs e) →
  t' = {| entities := <[i := set_buffs e (buffs e ++ [closed])]> (entities t);
          fabricated := fabricated t ++ [stack_change closed ts None (Some 0)] |}
  ∧ ∀ fuel sourceId,
      sourceID event = Some sourceId ∨ sourceID event = None →
      Forall (untouched (guid (ability event)) sourceId) (entities t) →
      invulnerable_of (id e) = [] →
      Forall (λ b, start b <= orElse (end_ b) currentTimestamp)
        (matching (guid (ability event)) sourceId (flat_map buffs (entities t))) →
      start_time <= ts → ts ≠ 0 →
      ∃ u,
        getStatusUptime fuel (entities t') (guid (ability event)) sourceId
        = Some (u, entities t')
        ∧ ts - start_time <= u
        ∧ (matching (guid (ability event)) sourceId (flat_map buffs (entities t)) = [] →
           u = ts - start_time).
Proof.
  intros ts closed t' Hr Hnone.
  assert (Hrm : t'
    = {| entities := <[i := set_buffs e (buffs e ++ [closed])]> (entities t);
         fabricated := fabricated t ++ [stack_change closed ts None (Some 0)] |}).
  { subst t'. unfold removeBuff. rewrite Hr.
    apply (list_find_None (is_open (guid (ability event)))) in Hnone. by rewrite Hnone. }
  split; [exact Hrm|].
  intros fuel sourceId Hsrc Hothers Hinv Hwf Hle Hts0. rewrite Hrm. cbn [entities].
  pose proof (resolve_lookup _ _ _ _ Hr) as Hi.
  assert (Hclosed : matching (guid (ability event)) sourceId [closed] = [closed]).
  { unfold matching. rewrite filter_cons_True; [done|].
    unfold buff_matches, buff_guid, buff_sourceID. cbn. rewrite Z.eqb_refl. cbn.
    destruct Hsrc as [-> | ->].
    - by rewrite bool_decide_eq_true_2.
    - rewrite (bool_decide_eq_true_2 (None = None)) by done. by rewrite andb_false_r. }
  assert (Hiv : buff_interval closed = (start_time, ts)).
  { unfold buff_interval. cbn. by destruct (Z.eqb_spec ts 0). }
  destruct (matching_push (guid (ability event)) sourceId (entities t) i e closed Hi)
    as (P & Q & HM & HM').
  rewrite Hclosed in HM'. rewrite HM in Hwf. apply Forall_app in Hwf as [HP HQ].
  eexists. split; [|split].
  - apply getStatusUptime_untouched. apply Forall_insert; [exact Hothers | by left].
  - rewrite HM', buff_events_intervals.
    apply (reduce_events_covers _ (start_time, ts)).
    + rewrite !fmap_app, !Forall_app, !Forall_fmap. split; [done|]. split; [|done].
      constructor; [|done]. unfold compose. by rewrite Hiv.
    + rewrite <- Hiv. apply list_elem_of_fmap_2.
      rewrite !elem_of_app, list_elem_of_singleton. auto.
  - intros Hnil. rewrite HM', buff_events_intervals.
    rewrite Hnil in HM. symmetry in HM. apply app_eq_nil in HM as [-> ->].
    cbn [fmap list_fmap app interval_events flat_map]. rewrite Hiv.
    unfold reduce_events. cbn. zsolve; lia.
Qed.
End RemoveFacts.

(** ** The Requiescat window classifier *)

Section ClassifierFacts.

Import Requiescat.

Context {data : GameData}.

Lemma mp_gate_spec res :
  0 < maxMP res →
  mp_gate res = true ↔ 4 * maxMP res <= 5 * (mp res + 141).
Proof.
  intros Hpos. unfold mp_gate, MP_THRESHOLD, TICK_AMOUNT.
  destruct (Z.eqb_spec (maxMP res) 0) as [?|_]; [lia|].
  rewrite Qle_bool_iff. destruct (maxMP res) as [|p|p]; try lia.
  unfold Qle, Qdiv, Qmult, Qinv, inject_Z. cbn. lia.
Qed.

Lemma record_cast_errors event a :
  requiescatErrorResult (record_cast event a) = requiescatErrorResult a.
Proof. unfold record_cast. by destruct (start (requiescatState a)). Qed.

Lemma record_cast_start event a :
  start (requiescatState (record_cast event a)) = start (requiescatState a).
Proof. unfold record_cast. by destruct (start (requiescatState a)) eqn:E. Qed.

(** C7. A cast of Requiescat opens a window at its timestamp when
    [(mp + 141) / maxMP >= 0.8] and leaves the tallies alone; otherwise it
    opens none and adds one to [missedRequiescatBuffs].  On a pool of positive
    size the gate is [4 * maxMP <= 5 * (mp + 141)]: a cast at 85% passes it,
    and a cast at 70% fails it when one tick is less than a tenth of the pool. *)
Theorem requiescat_cast_gate res event a :
  ATTACK ≠ REQUIESCAT →
  ability_guid event = REQUIESCAT →
  let a' := onCast res event a in
  (if mp_gate res
   then start (requiescatState a') = Some (timestamp event)
        ∧ requiescatErrorResult a' = requiescatErrorResult a
   else start (requiescatState a') = start (requiescatState a)
        ∧ missedRequiescatBuffs (requiescatErrorResult a')
          = missedRequiescatBuffs (requiescatErrorResult a) + 1
        ∧ missedHolySpirits (requiescatErrorResult a')
          = missedHolySpirits (requiescatErrorResult a))
  ∧ (0 < maxMP res → (mp_gate res = true ↔ 4 * maxMP res <= 5 * (mp res + 141)))
  ∧ (0 < maxMP res → 100 * mp res = 85 * maxMP res → mp_gate res = true)
  ∧ (1410 < maxMP res → 100 * mp res = 70 * maxMP res → mp_gate res = false).
Proof.
  intros Hne Hid a'. subst a'. unfold onCast. rewrite Hid.
  destruct (Z.eqb_spec REQUIESCAT ATTACK) as [?|_]; [congruence|].
  rewrite Z.eqb_refl. split; [|split; [|split]].
  - destruct (mp_gate res).
    + by rewrite record_cast_start, record_cast_errors.
    + by rewrite record_cast_start, record_cast_errors.
  - apply mp_gate_spec.
  - intros Hpos H85. apply mp_gate_spec; lia.
  - intros Hpos H70. apply not_true_is_false. rewrite mp_gate_spec by lia. lia.
Qed.

(** C8. The removal of the Requiescat status adds [max(0, 5 - holySpirits)]
    to [missedHolySpirits]: 2 after three casts of Holy Spirit, nothing after
    five or more; the tally never goes down, and the state is reset. *)
Theorem window_close_shortfall a :
  let a' := onRemoveRequiescat a in
  let n := holySpirits (requiescatState a) in
  missedHolySpirits (requiescatErrorResult a')
  = missedHolySpirits (requiescatErrorResult a) + Z.max 0 (5 - n)
  ∧ missedHolySpirits (requiescatErrorResult a) <= missedHolySpirits (requiescatErrorResult a')
  ∧ (n = 3 → missedHolySpirits (requiescatErrorResult a')
             = missedHolySpirits (requiescatErrorResult a) + 2)
  ∧ (5 <= n → missedHolySpirits (requiescatErrorResult a')
              = missedHolySpirits (requiescatErrorResult a))
  ∧ missedRequiescatBuffs (requiescatErrorResult a')
    = missedRequiescatBuffs (requiescatErrorResult a)
  ∧ requiescatState a' = new_RequiescatState
  ∧ requiescatRotations a' = requiescatRotations a.
Proof. cbn. unfold EXPECTED. repeat split; lia. Qed.

(** C10. A removal of the Requiescat status by the player while no window is
    open and no Holy Spirit is counted runs [onRemoveRequiescat] all the same:
    [missedHolySpirits] grows by 5 and no rotation is recorded. *)
Theorem idle_removal_counts_five a :
  requiescatState a = new_RequiescatState →
  let a' := dispatch a (RemoveBuff true STATUS_REQUIESCAT) in
  a' = onRemoveRequiescat a
  ∧ missedHolySpirits (requiescatErrorResult a')
    = missedHolySpirits (requiescatErrorResult a) + 5
  ∧ requiescatRotations a' = requiescatRotations a
  ∧ requiescatState a' = new_RequiescatState.
Proof.
  intros Hidle. cbn. rewrite Z.eqb_refl. unfold onRemoveRequiescat. rewrite Hidle. cbn.
  done.
Qed.
End ClassifierFacts.

(** ** The model on the sample logs *)

Section Runs.

Import Entities Samples.

Lemma overlapping_buffs_counted_once_run :
  getStatusUptime (env := quiet) 0 overlapping 7 1 = Some (15, overlapping).
Proof.
  apply (overlapping_buffs_counted_once (env := quiet) 0%nat overlapping 7 1
           (closed_buff 7 (Some 1) 1 0 10) (closed_buff 7 None 1 5 15) 10 15).
  - repeat constructor.
  - reflexivity.
  - reflexivity.
  - reflexivity.
  - discriminate.
  - discriminate.
  - cbn; lia.
  - cbn; lia.
  - cbn; lia.
  - cbn; lia.
Defined.

Lemma invuln_inside_splits_run :
  subtract_invulns 3 [invulnerable 13 17] (closed_buff 7 (Some 1) 1 10 20, [TheBuff])
  = Some (closed_buff 7 (Some 1) 1 10 20,
          [ Fresh {| r_start := 10; r_end := Some 13 |};
            Fresh {| r_start := 17; r_end := Some 20 |} ])
  ∧ getStatusUptime (env := hole) 3 one_buff 7 1 = Some (6, one_buff).
Proof.
  apply (invuln_inside_splits (env := hole) 3%nat
           {| id := 1; buffs := [closed_buff 7 (Some 1) 1 10 20] |}
           (closed_buff 7 (Some 1) 1 10 20) (invulnerable 13 17) 20 7 1).
  - lia.
  - reflexivity.
  - reflexivity.
  - reflexivity.
  - reflexivity.
  - cbn; lia.
  - cbn; lia.
  - cbn; lia.
  - discriminate.
  - discriminate.
Defined.

Lemma fresh_tracker_invariant : at_most_one_open fresh_tracker.
Proof.
  intros e g He. apply list_elem_of_singleton in He. subst e. cbn. lia.
Defined.

Lemma one_open_buff_on_bracketed_logs_run :
  at_most_one_open (on_events (env := quiet) fresh_tracker (take 4 bracketed)).
Proof.
  apply (one_open_buff_on_bracketed_logs (env := quiet) fresh_tracker bracketed).
  - exact fresh_tracker_invariant.
  - vm_compute. repeat split.
Defined.

(** C4, as stated, fails: two applications of a status with no removal in
    between leave two open buffs of it on the entity. *)
Lemma double_apply_opens_two :
  ¬ (∀ (env : Env) t events,
       at_most_one_open t →
       ∀ n, at_most_one_open (on_events t (take n events))).
Proof.
  intros Hclaim.
  pose proof (Hclaim quiet fresh_tracker double_apply fresh_tracker_invariant 2%nat) as Hinv.
  assert (Hopen : (open_count 7
            (buffs_of_first (entities (on_events (env := quiet) fresh_tracker double_apply)))
            ≤ 1)%nat).
  { apply Hinv. vm_compute. constructor. }
  vm_compute in Hopen. lia.
Qed.

Lemma removeBuff_without_open_buff_run :
  entities (removeBuff (env := quiet) late_removal false fresh_tracker)
  = [ {| id := 1;
         buffs := [ {| origin := late_removal; start := 5; end_ := Some 50; stacks := None;
                       stackHistory := [ {| stacks_at := Some 1; at_timestamp := 5 |};
                                         {| stacks_at := Some 0; at_timestamp := 50 |} ];
                       isDebuff := false |} ] |} ]
  ∧ ∃ u, getStatusUptime (env := quiet) 0
           (entities (removeBuff (env := quiet) late_removal false fresh_tracker)) 7 1
         = Some (u, entities (removeBuff (env := quiet) late_removal false fresh_tracker))
         ∧ 45 <= u ∧ u = 45.
Proof.
  destruct (removeBuff_without_open_buff (env := quiet) fresh_tracker late_removal false
              0%nat {| id := 1; buffs := [] |}) as [Hrm Hup].
  - reflexivity.
  - constructor.
  - split; [by rewrite Hrm|].
    destruct (Hup 0%nat 1) as (u & Hu & Hle & Hexact).
    + by left.
    + repeat constructor.
    + reflexivity.
    + constructor.
    + cbn; lia.
    + discriminate.
    + exists u. split; [exact Hu|]. split; [exact Hle|]. by apply Hexact.
Defined.

Lemma updateBuffStack_without_open_buff_run :
  updateBuffStack (env := quiet) stray_stack fresh_tracker = fresh_tracker
  ∧ on_event (env := quiet) fresh_tracker stray_stack = fresh_tracker.
Proof.
  apply (updateBuffStack_without_open_buff (env := quiet) fresh_tracker stray_stack
           0%nat {| id := 1; buffs := [] |}).
  - reflexivity.
  - constructor.
Defined.

End Runs.

Section ClassifierRuns.

Import Requiescat Samples.

Lemma requiescat_cast_gate_run :
  start (requiescatState
           (onCast (data := paladin) {| mp := 8500; maxMP := 10000 |} requiescat_cast initial))
  = Some 100
  ∧ missedRequiescatBuffs (requiescatErrorResult
      (onCast (data := paladin) {| mp := 7000; maxMP := 10000 |} requiescat_cast initial))
    = 1.
Proof.
  pose proof (requiescat_cast_gate (data := paladin)
                {| mp := 8500; maxMP := 10000 |} requiescat_cast initial) as H85.
  pose proof (requiescat_cast_gate (data := paladin)
                {| mp := 7000; maxMP := 10000 |} requiescat_cast initial) as H70.
  destruct H85 as (Hopen & _ & Hpass & _); [discriminate | reflexivity |].
  destruct H70 as (Hmiss & _ & _ & Hfail); [discriminate | reflexivity |].
  rewrite Hpass in Hopen by (cbn; lia). rewrite Hfail in Hmiss by (cbn; lia).
  split; [apply Hopen | apply Hmiss].
Defined.

Lemma window_close_shortfall_run :
  missedHolySpirits (requiescatErrorResult (onRemoveRequiescat three_spirits)) = 2.
Proof.
  destruct (window_close_shortfall three_spirits) as (_ & _ & Hthree & _).
  by apply Hthree.
Defined.

Lemma idle_removal_counts_five_run :
  missedHolySpirits (requiescatErrorResult
    (dispatch (data := paladin) initial (RemoveBuff true 1368))) = 5
  ∧ requiescatRotations (dispatch (data := paladin) initial (RemoveBuff true 1368)) = ∅.
Proof.
  destruct (idle_removal_counts_five (data := paladin) initial) as (_ & Hfive & Hrot & _).
  - reflexivity.
  - split; [exact Hfive | exact Hrot].
Defined.

End ClassifierRuns.

(** ** Bounds on the reduction *)

Section MoreSweep.

Import Entities.


Lemma insert_remove_upper l : ∀ a last e,
  0 <= a → balanced a l → sorted_from last l → last <= e →
  covered (a + 1) last (insert_event (remove_at e) l) <= covered a last l + (e - last).
Proof.
  induction l as [|y l IH]; intros a last e Ha Hbal Hs Hle.
  - cbn in *. subst a. cbn. zcases; lia.
  - destruct Hbal as [Hnn Hbal]. destruct Hs as [Hy Hs]. cbn [insert_event fe_timestamp remove_at].
    destruct (Z.leb_spec e (fe_timestamp y)) as [Hey|Hey].
    + cbn. replace (a + 1 + -1) with a by lia. zcases; lia.
    + pose proof (IH (a + delta y) (fe_timestamp y) e ltac:(lia) Hbal Hs ltac:(lia)) as Hc.
      cbn [covered]. replace (a + 1 + delta y) with (a + delta y + 1) by lia.
      zcases; lia.
Qed.

Lemma insert_pair_upper l : ∀ a last s e,
  0 <= a → balanced a l → sorted_from last l → last <= s → s <= e →
  covered a last (insert_event (apply_at s) (insert_event (remove_at e) l))
  <= covered a last l + (e - s).
Proof.
  induction l as [|y l IH]; intros a last s e Ha Hbal Hs Hls Hse.
  - cbn in *. subst a. zcases. cbn. zcases; lia.
  - destruct Hbal as [Hnn Hbal]. destruct Hs as [Hy Hs]. cbn [insert_event fe_timestamp remove_at].
    destruct (Z.leb_spec e (fe_timestamp y)) as [Hey|Hey].
    + cbn. zcases; cbn; replace (a + 1 + -1) with a by lia; zcases; lia.
    + cbn [insert_event fe_timestamp apply_at].
      destruct (Z.leb_spec s (fe_timestamp y)) as [Hsy|Hsy].
      * pose proof (insert_remove_upper l (a + delta y) (fe_timestamp y) e
                      ltac:(lia) Hbal Hs ltac:(lia)) as Hc.
        cbn. replace (a + 1 + delta y) with (a + delta y + 1) by lia.
        zcases; lia.
      * pose proof (IH (a + delta y) (fe_timestamp y) s e
                      ltac:(lia) Hbal Hs ltac:(lia) Hse) as Hc.
        cbn [covered]. zcases; lia.
Qed.

Lemma sort_intervals_upper ivs :
  Forall (λ iv, iv.1 <= iv.2) ivs →
  0 <= covered 0 0 (sort_events (interval_events ivs)) <= total_duration ivs.
Proof.
  induction ivs as [|[s e] ivs IH]; intros Hwf; [done|].
  inversion Hwf as [|? ? Hse Hwf']; subst. cbn in Hse. specialize (IH Hwf').
  change (sort_events (interval_events ((s, e) :: ivs)))
    with (insert_event (apply_at s) (insert_event (remove_at e)
            (sort_events (interval_events ivs)))).
  set (L := sort_events (interval_events ivs)) in *.
  destruct (sort_intervals ivs Hwf') as (Hbal & Hsorted & _). fold L in Hbal, Hsorted.
  destruct (lower_bound ((s, e) :: ivs)) as [lo Hlo].
  inversion Hlo as [|? ? Hlos Hlo']; subst. cbn in Hlos.
  pose proof (insert_pair_upper L 0 lo s e ltac:(lia) Hbal (Hsorted _ Hlo') Hlos Hse) as Hup.
  destruct (insert_pair L 0 lo s e) as (_ & _ & _ & Hlow); [lia|done|by apply Hsorted|done..|].
  pose proof (covered_idle (insert_event (apply_at s) (insert_event (remove_at e) L)) 0 lo) as E1.
  pose proof (covered_idle L 0 lo) as E2.
  change (total_duration ((s, e) :: ivs)) with ((e - s) + total_duration ivs).
  lia.
Qed.

Lemma reduce_events_covered ivs :
  Forall (λ iv, iv.1 <= iv.2) ivs →
  reduce_events (sort_events (interval_events ivs))
  = covered 0 0 (sort_events (interval_events ivs)).
Proof.
  intros Hwf. destruct (sort_intervals ivs Hwf) as (Hbal & _ & _).
  unfold reduce_events. rewrite (sweep_covered _ 0 None 0 0); [|lia|done|lia]. by cbn.
Qed.

(** Pairs of events reduce to the sum of their lengths, whatever their
    order in time. *)
Lemma sweep_pairs ivs : ∀ s u,
  uptime (foldl sweep_step {| active := 0; sweep_start := s; uptime := u |}
            (interval_events ivs))
  = u + total_duration ivs.
Proof.
  induction ivs as [|iv ivs IH]; intros s u; [cbn; lia|].
  change (interval_events (iv :: ivs))
    with (apply_at iv.1 :: remove_at iv.2 :: interval_events ivs).
  change (foldl sweep_step {| active := 0; sweep_start := s; uptime := u |}
            (apply_at iv.1 :: remove_at iv.2 :: interval_events ivs))
    with (foldl sweep_step
            {| active := 0; sweep_start := Some iv.1; uptime := u + (iv.2 - iv.1) |}
            (interval_events ivs)).
  rewrite IH. change (total_duration (iv :: ivs)) with ((iv.2 - iv.1) + total_duration ivs).
  lia.
Qed.

Lemma chronological_lower last ivs :
  chronological last ivs →
  Forall (λ ev, last <= fe_timestamp ev) (interval_events ivs).
Proof.
  revert last. induction ivs as [|iv ivs IH]; intros last Hc; [constructor|].
  destruct Hc as (H1 & H2 & H3). cbn. constructor; [cbn; lia|]. constructor; [cbn; lia|].
  eapply Forall_impl; [exact (IH _ H3)|]. intros ev Hev. cbn in Hev. lia.
Qed.

(** The events of intervals in log order are already sorted. *)
Lemma sort_chronological last ivs :
  chronological last ivs → sort_events (interval_events ivs) = interval_events ivs.
Proof.
  revert last. induction ivs as [|iv ivs IH]; intros last Hc; [done|].
  destruct Hc as (H1 & H2 & H3).
  change (sort_events (interval_events (iv :: ivs)))
    with (insert_event (apply_at iv.1) (insert_event (remove_at iv.2)
            (sort_events (interval_events ivs)))).
  rewrite (IH _ H3).
  rewrite (insert_event_stable (remove_at iv.2)) by exact (chronological_lower _ _ H3).
  rewrite insert_event_stable; [done|]. constructor; [cbn; lia|].
  eapply Forall_impl; [exact (chronological_lower _ _ H3)|]. intros ev Hev. cbn in *. lia.
Qed.

End MoreSweep.


(** ** Invulns outside the span of a buff *)

Section DiscardFacts.

Import Entities.

Context {env : Env}.

Lemma subtract_discarded fuel invs b rs :
  Forall (discarded_for b) invs → subtract_invulns fuel invs (b, rs) = Some (b, rs).
Proof.
  induction 1 as [|inv invs Hd _ IH]; [done|].
  cbn [subtract_invulns]. unfold apply_invuln. cbn [fst snd].
  assert (Ht : (inv_end inv <? start b) || (inv_start inv >? toNum (end_ b)) = true).
  { unfold discarded_for in Hd. rewrite Z.gtb_ltb. apply orb_true_iff.
    destruct Hd; [left | right]; by apply Z.ltb_lt. }
  rewrite Ht. cbn. exact IH.
Qed.

Lemma visit_buffs_unaffected fuel invs statusId sourceId bs :
  Forall (λ b, buff_matches statusId sourceId b = true → Forall (discarded_for b) invs) bs →
  visit_buffs fuel invs statusId sourceId bs
  = Some (bs, flat_map buff_events (matching statusId sourceId bs)).
Proof.
  induction 1 as [|b bs Hb _ IH]; [done|].
  cbn [visit_buffs]. unfold visit_buff, matching in *.
  destruct (buff_matches statusId sourceId b) eqn:Hm.
  - rewrite subtract_discarded by auto. rewrite filter_cons_True by done.
    cbn [mbind option_bind fst snd]. by rewrite IH.
  - rewrite filter_cons_False by congruence. cbn [mbind option_bind fst snd]. by rewrite IH.
Qed.

Lemma visit_entities_unaffected fuel statusId sourceId es :
  Forall (unaffected statusId sourceId) es →
  visit_entities fuel statusId sourceId es
  = Some (es, flat_map buff_events (matching statusId sourceId (flat_map buffs es))).
Proof.
  induction 1 as [|e es He _ IH]; [done|].
  cbn [visit_entities]. unfold visit_entity.
  rewrite visit_buffs_unaffected by exact He. rewrite IH. cbn.
  unfold matching. rewrite filter_app, flat_map_app. by destruct e.
Qed.

Lemma getStatusUptime_unaffected fuel statusId sourceId es :
  Forall (unaffected statusId sourceId) es →
  getStatusUptime fuel es statusId sourceId
  = Some (reduce_events (sort_events
            (interval_events (selected_intervals statusId sourceId es))), es).
Proof.
  intros Hes. unfold getStatusUptime, selected_intervals.
  rewrite visit_entities_unaffected by done. cbn. by rewrite buff_events_intervals.
Qed.

Lemma untouched_unaffected statusId sourceId e :
  untouched statusId sourceId e → unaffected statusId sourceId e.
Proof.
  intros [Hnone|Hno]; unfold unaffected.
  - rewrite Hnone. apply Forall_forall. intros b _ _. constructor.
  - eapply Forall_impl; [exact Hno|]. intros b Hb Hm. congruence.
Qed.

End DiscardFacts.


(** ** Termination of the subtraction *)

Section Termination.

Import Entities.


Lemma splits_left_le inv rs : (splits_left inv rs ≤ length rs)%nat.
Proof.
  induction rs as [|r rs IH]; cbn; [lia|].
  assert (may_split inv r ≤ 1)%nat by (destruct r; cbn; [lia|destruct (_ && _); lia]).
  change (foldr (λ r n, (may_split inv r + n)%nat) 0%nat rs) with (splits_left inv rs). lia.
Qed.

Lemma split_ranges_terminates inv :
  inv_start inv <= inv_end inv →
  ∀ fuel i st,
    (length st.2 - i + splits_left inv (drop i st.2) < fuel)%nat →
    is_Some (split_ranges fuel inv i st).
Proof.
  intros Hwf. induction fuel as [|fuel IH]; intros i [b rs] Hfuel; [lia|].
  cbn in *. destruct (rs !! i) as [r|] eqn:Hi; [|by eexists].
  pose proof (lookup_lt_Some _ _ _ Hi) as Hlt.
  rewrite (drop_S _ _ _ Hi) in Hfuel. cbn in Hfuel.
  destruct ((inv_start inv <? range_start b r) && (inv_end inv >? range_start b r)) eqn:H1;
    [|destruct ((inv_start inv <? toNum (range_end b r))
                && (inv_end inv >? toNum (range_end b r))) eqn:H2;
      [|destruct ((inv_start inv >? range_start b r)
                  && (inv_end inv <? toNum (range_end b r))) eqn:H3]].
  - apply IH. destruct r; cbn; rewrite ?length_insert, ?drop_insert_lt by lia;
      unfold splits_left in *; lia.
  - apply IH. destruct r; cbn; rewrite ?length_insert, ?drop_insert_lt by lia;
      unfold splits_left in *; lia.
  - apply IH. cbn. unfold splice2.
    rewrite !length_app, length_take, length_drop. cbn [length].
    rewrite drop_app_ge by (rewrite length_take; lia).
    rewrite length_take. replace (S i - i `min` length rs)%nat with 1%nat by lia.
    cbn. assert (Hone : may_split inv r = 1%nat).
    { destruct r; [done|]. cbn [may_split]. cbn [range_start range_end] in H3. by rewrite H3. }
    assert (Hzero : (inv_start inv >? inv_end inv) = false).
    { rewrite Z.gtb_ltb. apply Z.ltb_ge. lia. }
    rewrite Hzero. cbn. unfold splits_left in *. lia.
  - apply IH. cbn. unfold splits_left in *. lia.
Qed.

Lemma apply_invuln_terminates inv st :
  inv_start inv <= inv_end inv →
  ∃ fuel0 st', ∀ fuel, (fuel0 ≤ fuel)%nat → apply_invuln fuel inv st = Some st'.
Proof.
  intros Hwf. unfold apply_invuln.
  destruct ((inv_end inv <? start st.1) || (inv_start inv >? toNum (end_ st.1))).
  - by exists 0%nat, st.
  - set (fuel0 := S (length st.2 - 0 + splits_left inv (drop 0 st.2))).
    destruct (split_ranges_terminates inv Hwf fuel0 0%nat st) as [st' Hst']; [lia|].
    exists fuel0, st'. intros fuel Hfuel. by eapply split_ranges_fuel.
Qed.

Lemma subtract_invulns_terminates invs :
  Forall (λ inv, inv_start inv <= inv_end inv) invs →
  ∀ st, ∃ fuel0 st', ∀ fuel, (fuel0 ≤ fuel)%nat → subtract_invulns fuel invs st = Some st'.
Proof.
  induction 1 as [|inv invs Hwf _ IH]; intros st.
  - by exists 0%nat, st.
  - destruct (apply_invuln_terminates inv st Hwf) as (f1 & st1 & H1).
    destruct (IH st1) as (f2 & st2 & H2).
    exists (f1 `max` f2)%nat, st2. intros fuel Hfuel. cbn.
    rewrite H1 by lia. cbn. apply H2. lia.
Qed.

Context {env : Env}.

Lemma visit_buffs_terminates invs statusId sourceId bs :
  Forall (λ inv, inv_start inv <= inv_end inv) invs →
  ∃ fuel0 r, ∀ fuel, (fuel0 ≤ fuel)%nat →
    visit_buffs fuel invs statusId sourceId bs = Some r.
Proof.
  intros Hwf. induction bs as [|b bs (f2 & r2 & H2)].
  - by exists 0%nat, ([], []).
  - unfold visit_buffs; fold visit_buffs. unfold visit_buff.
    destruct (buff_matches statusId sourceId b).
    + destruct (subtract_invulns_terminates invs Hwf (b, [TheBuff])) as (f1 & st1 & H1).
      eexists (f1 `max` f2)%nat, _. intros fuel Hfuel.
      rewrite H1 by lia. cbn. rewrite H2 by lia. cbn. reflexivity.
    + eexists f2, _. intros fuel Hfuel. cbn. rewrite H2 by lia. cbn. reflexivity.
Qed.

Lemma visit_entities_terminates statusId sourceId es :
  Forall (λ e, Forall (λ inv, inv_start inv <= inv_end inv) (invulnerable_of (id e))) es →
  ∃ fuel0 r, ∀ fuel, (fuel0 ≤ fuel)%nat →
    visit_entities fuel statusId sourceId es = Some r.
Proof.
  induction 1 as [|e es Hwf _ (f2 & r2 & H2)].
  - by exists 0%nat, ([], []).
  - destruct (visit_buffs_terminates _ statusId sourceId (buffs e) Hwf) as (f1 & r1 & H1).
    eexists (f1 `max` f2)%nat, _. intros fuel Hfuel.
    cbn. unfold visit_entity. rewrite H1 by lia. cbn. rewrite H2 by lia. cbn. reflexivity.
Qed.

(** X9. Where every invuln of kind invulnerable ends no earlier than it
    starts, [getStatusUptime] returns: from some number of rounds on, every
    fuel gives the same result. *)
Theorem getStatusUptime_terminates statusId sourceId es :
  Forall (λ e, Forall (λ inv, inv_start inv <= inv_end inv) (invulnerable_of (id e))) es →
  ∃ fuel0 r, ∀ fuel, (fuel0 ≤ fuel)%nat →
    getStatusUptime fuel es statusId sourceId = Some r.
Proof.
  intros Hwf. destruct (visit_entities_terminates statusId sourceId es Hwf) as (f & r & Hr).
  eexists f, _. intros fuel Hfuel. unfold getStatusUptime. rewrite Hr by done. reflexivity.
Qed.

(** X10. On an invuln of kind invulnerable that lies strictly inside a closed
    buff and ends before it starts, the loop over the ranges splits the range
    it has just made, round after round: no fuel gives a result. *)
Theorem getStatusUptime_hangs fuel e b inv b_end statusId sourceId :
  buffs e = [b] →
  invulnerable_of (id e) = [inv] →
  buff_matches statusId sourceId b = true →
  end_ b = Some b_end →
  start b < inv_end inv → inv_end inv < inv_start inv → inv_start inv < b_end →
  getStatusUptime fuel [e] statusId sourceId = None.
Proof.
  intros Hbs Hinv Hm Hend Hlo Hrev Hhi.
  unfold getStatusUptime. cbn [visit_entities]. unfold visit_entity.
  rewrite Hinv, Hbs. cbn [visit_buffs]. unfold visit_buff. rewrite Hm.
  by rewrite (subtract_reversed_invuln fuel b inv b_end).
Qed.

End Termination.


(** ** Laws of getStatusUptime *)

Section UptimeLawsFacts.

Import Entities.

Context {env : Env}.

(** X1. A query that selects no buff (no buff of the status, or none from
    the source) returns 0 and leaves the tracker as it is, whatever the
    invulns. *)
Theorem no_selected_buff_no_uptime fuel es statusId sourceId :
  Forall (λ e, Forall (λ b, buff_matches statusId sourceId b = false) (buffs e)) es →
  getStatusUptime fuel es statusId sourceId = Some (0, es).
Proof.
  intros Hno. rewrite getStatusUptime_untouched.
  - by rewrite matching_none.
  - eapply Forall_impl; [exact Hno|]. intros e He. by right.
Qed.

(** X2. Invulns that end before a selected buff starts or start after it
    ends are discarded: the call returns what it returns without any invuln,
    and leaves the tracker as it is. *)
Theorem discarded_invulns_change_nothing fuel es statusId sourceId :
  Forall (unaffected statusId sourceId) es →
  getStatusUptime fuel es statusId sourceId
  = getStatusUptime (env := without_invulns env) fuel es statusId sourceId
  ∧ snd <$> getStatusUptime fuel es statusId sourceId = Some es.
Proof.
  intros Hes. rewrite getStatusUptime_unaffected by done.
  rewrite (getStatusUptime_unaffected (env := without_invulns env)).
  - done.
  - apply Forall_forall. intros e _. apply Forall_forall. intros b _ _. constructor.
Qed.

(** X3. Where no invuln is kept and every selected buff starts before it
    ends, the uptime is not negative, at least the length of each selected
    buff and at most the sum of their lengths. *)
Theorem uptime_bounds fuel es statusId sourceId :
  Forall (unaffected statusId sourceId) es →
  Forall (λ iv, iv.1 <= iv.2) (selected_intervals statusId sourceId es) →
  ∃ u, getStatusUptime fuel es statusId sourceId = Some (u, es)
       ∧ 0 <= u <= total_duration (selected_intervals statusId sourceId es)
       ∧ Forall (λ iv, iv.2 - iv.1 <= u) (selected_intervals statusId sourceId es).
Proof.
  intros Hes Hwf. rewrite getStatusUptime_unaffected by done.
  eexists. split; [reflexivity|].
  rewrite reduce_events_covered by done. split.
  - by apply sort_intervals_upper.
  - by apply sort_intervals.
Qed.

(** X4. Selected buffs that follow one another in the table, each starting
    no earlier than the one before it ended, add up: the uptime is the sum of
    their lengths, a buff still open counting up to the current timestamp. *)
Theorem uptime_of_successive_buffs fuel es statusId sourceId lo :
  Forall (unaffected statusId sourceId) es →
  chronological lo (selected_intervals statusId sourceId es) →
  getStatusUptime fuel es statusId sourceId
  = Some (total_duration (selected_intervals statusId sourceId es), es).
Proof.
  intros Hes Hc. rewrite getStatusUptime_unaffected by done.
  rewrite (sort_chronological lo) by done.
  unfold reduce_events. by rewrite sweep_pairs.
Qed.

(** X5. The discard test reads the [null] end of an open buff as 0: an open
    buff keeps no invuln that starts after time 0, and its uptime is the time
    from its start to the current timestamp. *)
Theorem open_buff_ignores_later_invulns fuel e b statusId sourceId :
  buffs e = [b] →
  buff_matches statusId sourceId b = true →
  end_ b = None →
  start b <= currentTimestamp →
  Forall (λ inv, 0 < inv_start inv) (invulnerable_of (id e)) →
  getStatusUptime fuel [e] statusId sourceId = Some (currentTimestamp - start b, [e]).
Proof.
  intros Hbs Hm Hend Hcur Hpos.
  assert (Hsel : selected_intervals statusId sourceId [e] = [(start b, currentTimestamp)]).
  { unfold selected_intervals, matching. cbn [flat_map]. rewrite Hbs, app_nil_r.
    rewrite filter_cons_True by done. rewrite filter_nil. cbn.
    unfold buff_interval. by rewrite Hend. }
  rewrite getStatusUptime_unaffected.
  - rewrite Hsel. unfold reduce_events. cbn. zsolve; do 2 f_equal; lia.
  - constructor; [|done]. unfold unaffected. rewrite Hbs. constructor; [|done].
    intros _. eapply Forall_impl; [exact Hpos|]. intros inv Hinv. right. by rewrite Hend.
Qed.

(** X6. An invuln that starts before a closed buff and ends inside it chops
    the start: the uptime is the time from the end of the invuln to the end
    of the buff, and the start of the tracked buff is overwritten with the
    end of the invuln. *)
Theorem invuln_over_start_chops fuel e b inv b_end statusId sourceId :
  (2 ≤ fuel)%nat →
  buffs e = [b] →
  invulnerable_of (id e) = [inv] →
  buff_matches statusId sourceId b = true →
  end_ b = Some b_end →
  inv_start inv < start b → start b < inv_end inv → inv_end inv <= b_end →
  b_end ≠ 0 →
  getStatusUptime fuel [e] statusId sourceId
  = Some (b_end - inv_end inv, [set_buffs e [set_start b (inv_end inv)]]).
Proof.
  intros Hfuel Hbs Hinv Hm Hend H1 H2 H3 He0.
  destruct fuel as [|[|fuel]]; try lia.
  unfold getStatusUptime. cbn [visit_entities mbind option_bind].
  unfold visit_entity. rewrite Hinv, Hbs.
  cbn [visit_buffs]. unfold visit_buff. rewrite Hm.
  cbn. unfold apply_invuln. cbn. rewrite Hend. cbn.
  unfold reduce_events, set_buffs.
  repeat (cbn; rewrite ?Hend; unfold orElse; zcases); do 2 f_equal; lia.
Qed.

(** X7. An invuln that starts inside a closed buff and ends after it chops
    the end: the uptime is the time from the start of the buff to the start
    of the invuln, and the end of the tracked buff is overwritten with it. *)
Theorem invuln_over_end_chops fuel e b inv b_end statusId sourceId :
  (2 ≤ fuel)%nat →
  buffs e = [b] →
  invulnerable_of (id e) = [inv] →
  buff_matches statusId sourceId b = true →
  end_ b = Some b_end →
  start b <= inv_start inv → inv_start inv < b_end → b_end < inv_end inv →
  inv_start inv ≠ 0 →
  getStatusUptime fuel [e] statusId sourceId
  = Some (inv_start inv - start b, [set_buffs e [set_end b (Some (inv_start inv))]]).
Proof.
  intros Hfuel Hbs Hinv Hm Hend H1 H2 H3 Hs0.
  destruct fuel as [|[|fuel]]; try lia.
  unfold getStatusUptime. cbn [visit_entities mbind option_bind].
  unfold visit_entity. rewrite Hinv, Hbs.
  cbn [visit_buffs]. unfold visit_buff. rewrite Hm.
  cbn. unfold apply_invuln. cbn. rewrite Hend. cbn.
  unfold reduce_events, set_buffs.
  repeat (cbn; rewrite ?Hend; unfold orElse; zcases); do 2 f_equal; lia.
Qed.

End UptimeLawsFacts.


(** ** Laws of the buff handlers *)

Section HandlerLaws.

Import Entities.

Context {env : Env}.

Lemma resolve_None_ignored t event :
  resolve t event = None → on_event t event = t.
Proof.
  intros Hr. unfold on_event, applyBuff, updateBuffStack, removeBuff. rewrite Hr.
  by destruct (type event).
Qed.

(** X11. An event that is neither by nor to the parsed player, or for which
    [getEntity] has no entity, leaves the tracker as it is, whichever of the
    eight handlers it goes to. *)
Theorem irrelevant_event_ignored t event :
  (byPlayer event = false ∧ toPlayer event = false) ∨ getEntity (entities t) event = None →
  on_event t event = t.
Proof.
  intros Hign. apply resolve_None_ignored. unfold resolve, getBuffEventEntity.
  destruct Hign as [[-> ->] | Hnone]; [done|].
  rewrite Hnone. by destruct (negb _ && negb _).
Qed.

Lemma keeps_history_refl bs : keeps_history bs bs.
Proof. intros j b Hj. exists b. by repeat split. Qed.

Lemma keeps_history_trans bs1 bs2 bs3 :
  keeps_history bs1 bs2 → keeps_history bs2 bs3 → keeps_history bs1 bs3.
Proof.
  intros H12 H23 j b Hj.
  destruct (H12 j b Hj) as (b2 & Hj2 & Ho & Hs & Hd & Hp & Hc).
  destruct (H23 j b2 Hj2) as (b3 & Hj3 & Ho3 & Hs3 & Hd3 & Hp3 & Hc3).
  exists b3. repeat split; try congruence.
  - by etrans.
  - intros Hend. rewrite <- (Hc Hend). apply Hc3. by rewrite (Hc Hend).
Qed.

Lemma keeps_history_app bs b : keeps_history bs (bs ++ [b]).
Proof.
  intros j x Hj. exists x. rewrite lookup_app_l by (by eapply lookup_lt_Some).
  by repeat split.
Qed.

Lemma keeps_history_insert bs j b b' :
  bs !! j = Some b →
  origin b' = origin b → start b' = start b → isDebuff b' = isDebuff b →
  stackHistory b `prefix_of` stackHistory b' →
  end_ b = None →
  keeps_history bs (<[j := b']> bs).
Proof.
  intros Hj Ho Hs Hd Hp Hopen k x Hk.
  destruct (decide (j = k)) as [->|Hne].
  - rewrite Hj in Hk. injection Hk as <-. exists b'.
    rewrite list_lookup_insert_eq by (by eapply lookup_lt_Some).
    repeat split; (done || congruence).
  - exists x. rewrite list_lookup_insert_ne by done. by repeat split.
Qed.

Lemma keeps_entities_refl t : keeps_entities t t.
Proof. split; [done|]. intros i e Hi. exists e. split; [done|]. apply keeps_history_refl. Qed.

Lemma keeps_entities_trans t1 t2 t3 :
  keeps_entities t1 t2 → keeps_entities t2 t3 → keeps_entities t1 t3.
Proof.
  intros [Hid12 H12] [Hid23 H23]. split; [congruence|].
  intros i e Hi. destruct (H12 i e Hi) as (e2 & Hi2 & Hk2).
  destruct (H23 i e2 Hi2) as (e3 & Hi3 & Hk3). exists e3. split; [done|].
  by eapply keeps_history_trans.
Qed.

Lemma keeps_entities_insert t i e bs fab :
  entities t !! i = Some e →
  keeps_history (buffs e) bs →
  keeps_entities t {| entities := <[i := set_buffs e bs]> (entities t); fabricated := fab |}.
Proof.
  intros Hi Hk. split.
  - cbn. rewrite list_fmap_insert. cbn. apply list_insert_id. by rewrite list_lookup_fmap, Hi.
  - intros k x Hx. cbn. destruct (decide (i = k)) as [->|Hne].
    + rewrite Hi in Hx. injection Hx as <-. exists (set_buffs e bs).
      by rewrite list_lookup_insert_eq by (by eapply lookup_lt_Some).
    + exists x. rewrite list_lookup_insert_ne by done. split; [done|]. apply keeps_history_refl.
Qed.

Lemma on_event_keeps t event : keeps_entities t (on_event t event).
Proof.
  assert (Hap : ∀ d, keeps_entities t (applyBuff event d t)).
  { intros d. unfold applyBuff.
    destruct (resolve t event) as [[i e]|] eqn:Hr; [|apply keeps_entities_refl].
    apply keeps_entities_insert; [by eapply resolve_lookup | apply keeps_history_app]. }
  assert (Hup : keeps_entities t (updateBuffStack event t)).
  { unfold updateBuffStack.
    destruct (resolve t event) as [[i e]|] eqn:Hr; [|apply keeps_entities_refl].
    destruct (list_find _ _) as [[j buff]|] eqn:Hf; [|apply keeps_entities_refl].
    apply list_find_Some in Hf as (Hj & [_ Hopen] & _).
    apply keeps_entities_insert; [by eapply resolve_lookup|].
    eapply keeps_history_insert; try done. cbn. by apply prefix_app_r. }
  assert (Hrm : ∀ d, keeps_entities t (removeBuff event d t)).
  { intros d. unfold removeBuff.
    destruct (resolve t event) as [[i e]|] eqn:Hr; [|apply keeps_entities_refl].
    destruct (list_find _ _) as [[j buff]|] eqn:Hf.
    - apply list_find_Some in Hf as (Hj & [_ Hopen] & _).
      apply keeps_entities_insert; [by eapply resolve_lookup|].
      eapply keeps_history_insert; try done. cbn. by apply prefix_app_r.
    - apply keeps_entities_insert; [by eapply resolve_lookup | apply keeps_history_app]. }
  unfold on_event. destruct (type event); auto.
Qed.

(** X12. No sequence of buff events adds, removes or renames an entity, or
    moves or drops a buff: every buff keeps its place, its event, its start
    and its kind, its stack history only grows, and a closed buff is never
    written to again. *)
Theorem handlers_keep_history t events : keeps_entities t (on_events t events).
Proof.
  revert t. induction events as [|event events IH]; intros t; [apply keeps_entities_refl|].
  cbn. eapply keeps_entities_trans; [apply on_event_keeps | apply IH].
Qed.

End HandlerLaws.


(** ** Open buffs, counted *)

Section Accounting.

Import Entities.


Lemma open_count_insert g bs j b b' :
  bs !! j = Some b →
  (open_count g (<[j := b']> bs) + (if decide (is_open g b) then 1 else 0)
   = open_count g bs + (if decide (is_open g b') then 1 else 0))%nat.
Proof.
  revert j. induction bs as [|x bs IH]; intros [|j] Hj; try done.
  - cbn in Hj. injection Hj as ->. change (<[0%nat:=b']> (b :: bs)) with (b' :: bs).
    unfold open_count. rewrite !filter_cons.
    destruct (decide (is_open g b')), (decide (is_open g b)); cbn; lia.
  - cbn in Hj. change (<[S j:=b']> (x :: bs)) with (x :: <[j:=b']> bs).
    unfold open_count in *. rewrite !filter_cons. specialize (IH j Hj).
    destruct (decide (is_open g x)); cbn; lia.
Qed.

Lemma open_count_single g b :
  open_count g [b] = if decide (is_open g b) then 1%nat else 0%nat.
Proof. unfold open_count. rewrite filter_cons, filter_nil. by destruct (decide _). Qed.

Lemma open_count_none g bs :
  list_find (is_open g) bs = None → open_count g bs = 0%nat.
Proof.
  intros Hnone. apply list_find_None in Hnone. unfold open_count.
  induction Hnone as [|x bs Hx _ IH]; [done|]. by rewrite filter_cons_False.
Qed.

Context {env : Env}.

Lemma buffs_at_insert t i e bs fab :
  entities t !! i = Some e →
  buffs_at i {| entities := <[i := set_buffs e bs]> (entities t); fabricated := fab |} = bs.
Proof.
  intros Hi. unfold buffs_at. cbn.
  by rewrite list_lookup_insert_eq by (by eapply lookup_lt_Some).
Qed.

Lemma buffs_at_resolve t event i e :
  resolve t event = Some (i, e) → buffs_at i t = buffs e.
Proof. intros Hr. unfold buffs_at. by rewrite (resolve_lookup _ _ _ _ Hr). Qed.

(** X13. On the entity an event resolves to, [applyBuff] adds one open buff
    of the ability of the event, [removeBuff] takes one away if there is one,
    [updateBuffStack] none; the open buffs of other abilities are not
    touched. *)
Theorem open_buffs_accounting t event i e g isDebuff :
  resolve t event = Some (i, e) →
  let n := open_count g (buffs_at i t) in
  let mine := bool_decide (g = guid (ability event)) in
  open_count g (buffs_at i (applyBuff event isDebuff t)) = (if mine then S n else n)
  ∧ open_count g (buffs_at i (updateBuffStack event t)) = n
  ∧ open_count g (buffs_at i (removeBuff event isDebuff t)) = (if mine then pred n else n).
Proof.
  intros Hr n mine. subst n mine.
  pose proof (resolve_lookup _ _ _ _ Hr) as Hi.
  rewrite (buffs_at_resolve _ _ _ _ Hr).
  split; [|split].
  - unfold applyBuff. rewrite Hr. rewrite buffs_at_insert by done.
    rewrite open_count_app, open_count_single.
    unfold is_open, buff_guid. cbn.
    destruct (decide _) as [[<- _]|Hn]; case_bool_decide; try done; try lia.
    exfalso. apply Hn. by subst.
  - unfold updateBuffStack. rewrite Hr.
    destruct (list_find _ _) as [[j buff]|] eqn:Hf; [|by rewrite (buffs_at_resolve _ _ _ _ Hr)].
    apply list_find_Some in Hf as (Hj & Hopen & _).
    rewrite buffs_at_insert by done.
    pose proof (open_count_insert g (buffs e) j buff
      {| origin := origin buff; start := start buff; end_ := end_ buff; stacks := stack event;
         stackHistory := stackHistory buff ++
           [ {| stacks_at := stack event; at_timestamp := timestamp event |} ];
         isDebuff := Entities.isDebuff buff |} Hj) as Hc.
    unfold is_open, buff_guid in *. cbn in Hc.
    destruct (decide (guid (ability (origin buff)) = g ∧ end_ buff = None)); lia.
  - unfold removeBuff. rewrite Hr.
    destruct (list_find _ _) as [[j buff]|] eqn:Hf.
    + apply list_find_Some in Hf as (Hj & Hopen & _).
      rewrite buffs_at_insert by done.
      pose proof (open_count_insert g (buffs e) j buff (close_buff event buff) Hj) as Hc.
      unfold is_open, buff_guid in *. cbn in Hc. destruct Hopen as [Hg Hend].
      destruct (decide (guid (ability (origin buff)) = g ∧ Some (timestamp event) = None))
        as [[_ ?]|_]; [done|].
      destruct (decide (guid (ability (origin buff)) = g ∧ end_ buff = None)) as [[Hg' _]|Hn];
        case_bool_decide; try lia; try congruence.
      exfalso. apply Hn. split; congruence.
    + rewrite buffs_at_insert by done.
      rewrite open_count_app, open_count_single.
      unfold is_open at 1. cbn.
      destruct (decide _) as [[_ ?]|_]; [done|].
      case_bool_decide; [|lia]. subst g.
      rewrite (open_count_none _ _ Hf). cbn. lia.
Qed.

End Accounting.


(** ** A buff from application to removal *)

Section Lifecycle.

Import Entities.


Lemma list_find_last g old b :
  Forall (λ x, ¬ is_open g x) old → is_open g b →
  list_find (is_open g) (old ++ [b]) = Some (length old, b).
Proof.
  intros Hold Hb. induction Hold as [|x old Hx _ IH]; cbn.
  - by rewrite decide_True.
  - rewrite decide_False by done. by rewrite IH.
Qed.

Lemma insert_last (old : list Buff) b b' :
  <[length old := b']> (old ++ [b]) = old ++ [b'].
Proof.
  rewrite insert_app_r_alt by lia. by rewrite Nat.sub_diag.
Qed.

Lemma restacked_all b us :
  foldl restacked b us
  = {| origin := origin b; start := start b; end_ := end_ b;
       stacks := foldl (λ _ u, stack u) (stacks b) us;
       stackHistory := stackHistory b ++ (stack_entry_of <$> us);
       isDebuff := isDebuff b |}.
Proof.
  revert b. induction us as [|u us IH]; intros b.
  - cbn. rewrite app_nil_r. by destruct b.
  - cbn [foldl]. rewrite IH. cbn. by rewrite <- app_assoc.
Qed.

Context {env : Env}.

Lemma resolve_at t tk i e bs event :
  entities t !! i = Some e →
  entities tk = <[i := set_buffs e bs]> (entities t) →
  (byPlayer event = true ∨ toPlayer event = true) →
  (∀ es, id <$> es = id <$> entities t → getEntity es event = Some i) →
  resolve tk event = Some (i, set_buffs e bs).
Proof.
  intros Hi Htk Hrel Hres. unfold resolve, getBuffEventEntity.
  assert (Hn : negb (byPlayer event) && negb (toPlayer event) = false).
  { destruct Hrel as [-> | ->]; [done | by rewrite andb_false_r]. }
  rewrite Hn, Hres.
  - cbn. rewrite Htk. by rewrite list_lookup_insert_eq by (by eapply lookup_lt_Some).
  - rewrite Htk, list_fmap_insert. apply list_insert_id. by rewrite list_lookup_fmap, Hi.
Qed.

Lemma updateBuffStack_last t tk i e b u :
  entities t !! i = Some e →
  entities tk = <[i := set_buffs e (buffs e ++ [b])]> (entities t) →
  Forall (λ x, ¬ is_open (guid (ability u)) x) (buffs e) →
  is_open (guid (ability u)) b →
  (byPlayer u = true ∨ toPlayer u = true) →
  (∀ es, id <$> es = id <$> entities t → getEntity es u = Some i) →
  entities (updateBuffStack u tk)
  = <[i := set_buffs e (buffs e ++ [restacked b u])]> (entities t)
  ∧ length (fabricated (updateBuffStack u tk)) = S (length (fabricated tk)).
Proof.
  intros Hi Htk Hold Hb Hrel Hres. unfold updateBuffStack.
  rewrite (resolve_at t tk i e _ u Hi Htk Hrel Hres). cbn [buffs set_buffs].
  rewrite (list_find_last _ _ _ Hold Hb). cbn [entities fabricated].
  rewrite length_app. cbn [length]. split; [|lia].
  rewrite Htk, list_insert_insert_eq. unfold set_buffs at 1. cbn [id buffs].
  by rewrite insert_last.
Qed.

Lemma updates_last t i e us : ∀ tk b,
  entities t !! i = Some e →
  entities tk = <[i := set_buffs e (buffs e ++ [b])]> (entities t) →
  is_open (buff_guid b) b →
  Forall (λ x, ¬ is_open (buff_guid b) x) (buffs e) →
  Forall (λ u, (byPlayer u = true ∨ toPlayer u = true)
               ∧ (∀ es, id <$> es = id <$> entities t → getEntity es u = Some i)
               ∧ guid (ability u) = buff_guid b) us →
  entities (foldl (λ t u, updateBuffStack u t) tk us)
  = <[i := set_buffs e (buffs e ++ [foldl restacked b us])]> (entities t)
  ∧ length (fabricated (foldl (λ t u, updateBuffStack u t) tk us))
    = (length (fabricated tk) + length us)%nat.
Proof.
  induction us as [|u us IH]; intros tk b Hi Htk Hb Hold Hus.
  - cbn. split; [done | lia].
  - inversion Hus as [|? ? (Hrel & Hres & Hg) Hus']; subst. cbn [foldl].
    destruct (updateBuffStack_last t tk i e b u Hi Htk) as [Hent Hfab];
      [by rewrite Hg..|done|done|].
    destruct (IH (updateBuffStack u tk) (restacked b u) Hi Hent) as [Hent' Hfab'];
      [by destruct Hb | done | done |].
    split; [exact Hent'|]. rewrite Hfab', Hfab. cbn. lia.
Qed.

Lemma lifecycle_run t i e applied d updates removed d' :
  entities t !! i = Some e →
  Forall (λ b, ¬ is_open (guid (ability applied)) b) (buffs e) →
  Forall (λ ev, (byPlayer ev = true ∨ toPlayer ev = true)
                ∧ (∀ es, id <$> es = id <$> entities t → getEntity es ev = Some i)
                ∧ guid (ability ev) = guid (ability applied))
         (applied :: updates ++ [removed]) →
  let t' := removeBuff removed d'
              (foldl (λ t u, updateBuffStack u t) (applyBuff applied d t) updates) in
  entities t'
  = <[i := set_buffs e (buffs e ++ [lifecycle_buff applied d updates removed])]> (entities t)
  ∧ length (fabricated t') = (length (fabricated t) + 2 + length updates)%nat.
Proof.
  intros Hi Hold Hevs t'. subst t'.
  inversion Hevs as [|? ? (Hrel & Hres & _) Hrest]; subst.
  apply Forall_app in Hrest as [Hus Hrm].
  inversion Hrm as [|? ? (Hrel' & Hres' & Hg') _]; subst.
  set (b0 := {| origin := applied; start := timestamp applied; end_ := None;
                stacks := Some 1;
                stackHistory := [ {| stacks_at := Some 1; at_timestamp := timestamp applied |} ];
                isDebuff := d |}).
  assert (Hap : entities (applyBuff applied d t)
                = <[i := set_buffs e (buffs e ++ [b0])]> (entities t)
                ∧ length (fabricated (applyBuff applied d t)) = S (length (fabricated t))).
  { unfold applyBuff.
    rewrite (resolve_at t t i e (buffs e) applied Hi); [| |done..].
    - cbn. rewrite length_app. cbn. split; [done|lia].
    - symmetry. apply list_insert_id. rewrite Hi. by destruct e. }
  destruct Hap as [Hap Hfab0].
  destruct (updates_last t i e updates (applyBuff applied d t) b0 Hi Hap) as [Hup Hfab1];
    [done | done | done |].
  set (tk := foldl (λ t u, updateBuffStack u t) (applyBuff applied d t) updates) in *.
  unfold removeBuff.
  rewrite (resolve_at t tk i e _ removed Hi Hup Hrel' Hres'). cbn [buffs set_buffs].
  rewrite Hg'.
  rewrite (list_find_last (guid (ability applied)) (buffs e) (foldl restacked b0 updates)).
  - cbn [entities fabricated]. rewrite length_app. cbn [length]. split; [|lia].
    rewrite Hup, list_insert_insert_eq. unfold set_buffs at 1. cbn [id buffs].
    rewrite insert_last. do 3 f_equal.
    rewrite restacked_all. unfold close_buff, lifecycle_buff. by cbn.
  - done.
  - rewrite restacked_all. by split.
Qed.

End Lifecycle.


(** ** The fabricated events *)

Section Fabricated.

Import Entities.

Context {env : Env}.

Lemma on_event_fabricates t event :
  on_event t event = t
  ∨ ∃ sc, fabricated (on_event t event) = fabricated t ++ [sc]
          ∧ change_timestamp sc = timestamp event
          ∧ buff_guid (changed sc) = guid (ability event).
Proof.
  assert (Hap : ∀ d, applyBuff event d t = t
    ∨ ∃ sc, fabricated (applyBuff event d t) = fabricated t ++ [sc]
            ∧ change_timestamp sc = timestamp event
            ∧ buff_guid (changed sc) = guid (ability event)).
  { intros d. unfold applyBuff. destruct (resolve t event) as [[i e]|]; [|by left].
    right. eexists. by repeat split. }
  assert (Hup : updateBuffStack event t = t
    ∨ ∃ sc, fabricated (updateBuffStack event t) = fabricated t ++ [sc]
            ∧ change_timestamp sc = timestamp event
            ∧ buff_guid (changed sc) = guid (ability event)).
  { unfold updateBuffStack. destruct (resolve t event) as [[i e]|]; [|by left].
    destruct (list_find _ _) as [[j buff]|] eqn:Hf; [|by left].
    apply list_find_Some in Hf as (_ & [Hg _] & _).
    right. eexists. by repeat split. }
  assert (Hrm : ∀ d, removeBuff event d t = t
    ∨ ∃ sc, fabricated (removeBuff event d t) = fabricated t ++ [sc]
            ∧ change_timestamp sc = timestamp event
            ∧ buff_guid (changed sc) = guid (ability event)).
  { intros d. unfold removeBuff. destruct (resolve t event) as [[i e]|]; [|by left].
    right. destruct (list_find _ _) as [[j buff]|] eqn:Hf.
    - apply list_find_Some in Hf as (_ & [Hg _] & _). eexists. by repeat split.
    - eexists. by repeat split. }
  unfold on_event. destruct (type event); auto.
Qed.

(** X14. The fabricated events are only added to: after any sequence of
    buff events the earlier ones come first, at most one has been added per
    event, and each one added carries the timestamp and the ability of an
    event of the sequence. *)
Theorem fabricated_is_appended_to events : ∀ t,
  ∃ l, fabricated (on_events t events) = fabricated t ++ l
       ∧ (length l ≤ length events)%nat
       ∧ Forall (λ sc, ∃ event, event ∈ events
                         ∧ change_timestamp sc = timestamp event
                         ∧ buff_guid (changed sc) = guid (ability event)) l.
Proof.
  induction events as [|event events IH]; intros t.
  - exists []. cbn. by rewrite app_nil_r.
  - cbn [on_events foldl]. destruct (IH (on_event t event)) as (l & Hl & Hlen & Hall).
    assert (Hall' : Forall (λ sc, ∃ ev, ev ∈ event :: events
                         ∧ change_timestamp sc = timestamp ev
                         ∧ buff_guid (changed sc) = guid (ability ev)) l).
    { eapply Forall_impl; [exact Hall|]. intros sc (ev & Hin & ?). exists ev.
      split; [by apply elem_of_cons; right | done]. }
    destruct (on_event_fabricates t event) as [Hsame | (sc & Hsc & Hts & Hg)].
    + exists l. unfold on_events in Hl. rewrite Hsame in Hl. rewrite Hsame.
      split; [exact Hl|]. split; [cbn; lia | exact Hall'].
    + exists (sc :: l). unfold on_events in Hl. rewrite Hl, Hsc, <- app_assoc.
      split; [done|]. split; [cbn; lia|]. constructor; [|exact Hall'].
      exists event. split; [by apply elem_of_cons; left | done].
Qed.

(** X15. An application, stack updates and a removal of one ability on an
    entity that holds no open buff of it leave one closed buff more, from the
    time of the application to the time of the removal, with the whole stack
    history, and fabricate one event each.  If the tracker held no selected
    buff of the status and the entity has no invuln, the uptime of the status
    is then the time from the application to the removal. *)
Theorem buff_lifecycle t i e applied d updates removed d' :
  entities t !! i = Some e →
  Forall (λ b, ¬ is_open (guid (ability applied)) b) (buffs e) →
  Forall (λ ev, (byPlayer ev = true ∨ toPlayer ev = true)
                ∧ (∀ es, id <$> es = id <$> entities t → getEntity es ev = Some i)
                ∧ guid (ability ev) = guid (ability applied))
         (applied :: updates ++ [removed]) →
  let t' := removeBuff removed d'
              (foldl (λ t u, updateBuffStack u t) (applyBuff applied d t) updates) in
  entities t'
  = <[i := set_buffs e (buffs e ++ [lifecycle_buff applied d updates removed])]> (entities t)
  ∧ length (fabricated t') = (length (fabricated t) + 2 + length updates)%nat
  ∧ ∀ fuel sourceId,
      sourceID applied = Some sourceId ∨ sourceID applied = None →
      Forall (λ e', Forall (λ b, buff_matches (guid (ability applied)) sourceId b = false)
                      (buffs e')) (entities t) →
      invulnerable_of (id e) = [] →
      timestamp applied <= timestamp removed → timestamp removed ≠ 0 →
      getStatusUptime fuel (entities t') (guid (ability applied)) sourceId
      = Some (timestamp removed - timestamp applied, entities t').
Proof.
  intros Hi Hold Hevs t'.
  destruct (lifecycle_run t i e applied d updates removed d' Hi Hold Hevs) as [Hent Hlen].
  fold t' in Hent, Hlen. split; [exact Hent|]. split; [exact Hlen|].
  intros fuel sourceId Hsrc Hothers Hinv Hle Hr0. rewrite Hent.
  set (b := lifecycle_buff applied d updates removed).
  assert (Hb : matching (guid (ability applied)) sourceId [b] = [b]).
  { unfold matching. rewrite filter_cons_True; [done|].
    unfold buff_matches, buff_guid, buff_sourceID. cbn. rewrite Z.eqb_refl. cbn.
    destruct Hsrc as [-> | ->].
    - by rewrite bool_decide_eq_true_2.
    - rewrite (bool_decide_eq_true_2 (None = None)) by done. by rewrite andb_false_r. }
  destruct (matching_push (guid (ability applied)) sourceId (entities t) i e b Hi)
    as (P & Q & HM & HM').
  rewrite (matching_none _ _ _ Hothers) in HM. symmetry in HM.
  apply app_eq_nil in HM as [-> ->]. rewrite Hb in HM'. cbn in HM'.
  rewrite getStatusUptime_untouched.
  - rewrite HM'. cbn. unfold reduce_events. cbn.
    destruct (Z.eqb_spec (timestamp removed) 0); [done|]. zsolve; do 2 f_equal; lia.
  - apply Forall_insert; [|by left].
    eapply Forall_impl; [exact Hothers|]. intros e' He'. by right.
Qed.

End Fabricated.


(** ** Laws of the Requiescat tallies *)

Section ClassifierLaws.

Import Requiescat.

Context {data : GameData}.

Lemma record_cast_rotations_start event a :
  start (requiescatState a) = None → record_cast event a = a.
Proof. intros Hs. unfold record_cast. by rewrite Hs. Qed.

Lemma dispatch_tallies a ev :
  missedHolySpirits (requiescatErrorResult a)
    <= missedHolySpirits (requiescatErrorResult (dispatch a ev))
  ∧ missedRequiescatBuffs (requiescatErrorResult a)
    <= missedRequiescatBuffs (requiescatErrorResult (dispatch a ev)).
Proof.
  destruct ev as [[] res event|[] abilityId|]; cbn; try lia.
  - unfold onCast. destruct (_ =? ATTACK); [lia|].
    rewrite record_cast_errors.
    destruct (_ =? REQUIESCAT); [destruct (mp_gate res)|]; cbn; lia.
  - destruct (abilityId =? STATUS_REQUIESCAT); cbn; lia.
Qed.

(** X16. Neither tally ever goes down, whatever the events. *)
Theorem tallies_never_decrease events : ∀ a,
  missedHolySpirits (requiescatErrorResult a)
    <= missedHolySpirits (requiescatErrorResult (run a events))
  ∧ missedRequiescatBuffs (requiescatErrorResult a)
    <= missedRequiescatBuffs (requiescatErrorResult (run a events)).
Proof.
  induction events as [|ev events IH]; intros a; [cbn; lia|].
  cbn [run foldl]. pose proof (dispatch_tallies a ev). specialize (IH (dispatch a ev)).
  unfold run in IH. lia.
Qed.

Lemma dispatch_counter_ok a ev : counter_ok a → counter_ok (dispatch a ev).
Proof.
  intros [Hnn Hidle]. destruct ev as [[] res event|[] abilityId|]; cbn; try done.
  - unfold onCast. destruct (_ =? ATTACK); [done|].
    destruct (_ =? REQUIESCAT); [destruct (mp_gate res)|];
      unfold record_cast, counter_ok; cbn;
      destruct (start (requiescatState a)) eqn:Hs; cbn; rewrite ?Hs;
      repeat case_match; split; try done; try lia; auto.
  - destruct (abilityId =? STATUS_REQUIESCAT); [|done]. by split.
Qed.

(** X17. From the initial state, the counter of Holy Spirits is never
    negative and is 0 whenever no window is open. *)
Theorem idle_counter_is_zero events :
  0 <= holySpirits (requiescatState (run initial events))
  ∧ (start (requiescatState (run initial events)) = None →
     holySpirits (requiescatState (run initial events)) = 0).
Proof.
  assert (H : ∀ a, counter_ok a → counter_ok (run a events)).
  { induction events as [|ev events IH]; intros a Ha; [done|].
    cbn [run foldl]. apply IH. by apply dispatch_counter_ok. }
  apply (H initial). by split.
Qed.

(** X18. [missedRequiescatBuffs] counts the casts of Requiescat by the
    player that did not pass the gate, and nothing else. *)
Theorem missed_buffs_counts_failed_gates events : ∀ a,
  ATTACK ≠ REQUIESCAT →
  missedRequiescatBuffs (requiescatErrorResult (run a events))
  = missedRequiescatBuffs (requiescatErrorResult a)
    + Z.of_nat (length (filter fails_gate events)).
Proof.
  induction events as [|ev events IH]; intros a Hne; [cbn; lia|].
  cbn [run foldl]. specialize (IH (dispatch a ev) Hne). unfold run in IH. rewrite IH.
  rewrite filter_cons.
  destruct (decide (fails_gate ev)) as [Hf|Hf]; cbn [length].
  - destruct ev as [[] res event|[] abilityId|]; try done. destruct Hf as [Hr Hg].
    cbn [dispatch]. unfold onCast. rewrite Hr, Hg.
    destruct (Z.eqb_spec REQUIESCAT ATTACK) as [?|_]; [congruence|].
    rewrite Z.eqb_refl, record_cast_errors. cbn. lia.
  - destruct ev as [[] res event|[] abilityId|]; cbn [dispatch]; try lia.
    + unfold onCast. destruct (Z.eqb_spec (ability_guid event) ATTACK); [lia|].
      rewrite record_cast_errors.
      destruct (Z.eqb_spec (ability_guid event) REQUIESCAT) as [Hr|Hr]; [|lia].
      destruct (mp_gate res) eqn:Hg; [cbn; lia|]. exfalso. apply Hf. by split.
    + destruct (abilityId =? STATUS_REQUIESCAT); cbn; lia.
Qed.

End ClassifierLaws.


(** ** Laws of the recorded rotations *)

Section RotationLaws.

Import Requiescat.

Context {data : GameData}.

Lemma record_cast_rotations_ok event a :
  ability_guid event ≠ ATTACK →
  (∀ s, start (requiescatState a) = Some s →
     is_Some (requiescatRotations a !! s)
     ∨ (ability_guid event = REQUIESCAT ∧ timestamp event = s)) →
  (∀ k l, requiescatRotations a !! k = Some l →
     (∃ opener rest, l = opener :: rest
                     ∧ ability_guid opener = REQUIESCAT ∧ timestamp opener = k)
     ∧ Forall (λ event, ability_guid event ≠ ATTACK) l) →
  rotations_ok (record_cast event a).
Proof.
  intros Hne Hopen Hall. unfold record_cast.
  destruct (start (requiescatState a)) as [s|] eqn:Hs.
  - split; cbn.
    + intros k l Hk. destruct (decide (s = k)) as [<-|Hsk].
      * rewrite lookup_insert_eq in Hk. injection Hk as <-.
        destruct (requiescatRotations a !! s) as [l0|] eqn:Hl0; cbn.
        -- destruct (Hall s l0 Hl0) as [(opener & rest & -> & Hg & Ht) Hno].
           split; [by exists opener, (rest ++ [event])|].
           apply Forall_app. split; [done | by constructor].
        -- destruct (Hopen s eq_refl) as [[? ?]|[Hg Ht]]; [congruence|].
           split; [by exists event, [] | by constructor].
      * rewrite lookup_insert_ne in Hk by done. by apply Hall.
    + intros s' [= <-]. rewrite lookup_insert_eq. by eexists.
  - split; [done|]. intros s Hs'. congruence.
Qed.

Lemma dispatch_rotations_ok a ev : rotations_ok a → rotations_ok (dispatch a ev).
Proof.
  intros [Hall Hopen]. destruct ev as [[] res event|[] abilityId|]; cbn; try done.
  - unfold onCast. destruct (Z.eqb_spec (ability_guid event) ATTACK) as [|Hne]; [done|].
    apply record_cast_rotations_ok; [done| |].
    + intros s Hs. destruct (Z.eqb_spec (ability_guid event) REQUIESCAT) as [Hr|Hr];
        [destruct (mp_gate res)|]; cbn in Hs; auto.
      right. split; [done | congruence].
    + destruct (_ =? REQUIESCAT); [destruct (mp_gate res)|]; exact Hall.
  - destruct (abilityId =? STATUS_REQUIESCAT); [|done]. split; [exact Hall | done].
Qed.

(** X19. From the initial state, every recorded rotation starts with the
    cast of Requiescat that opened it, is filed under the timestamp of that
    cast and holds no auto-attack; the open window always has a rotation. *)
Theorem rotations_start_with_requiescat events :
  rotations_ok (run initial events).
Proof.
  assert (H : ∀ a, rotations_ok a → rotations_ok (run a events)).
  { induction events as [|ev events IH]; intros a Ha; [done|].
    cbn [run foldl]. apply IH. by apply dispatch_rotations_ok. }
  apply H. split; [|done]. intros k l Hk. cbn in Hk. by rewrite lookup_empty in Hk.
Qed.

(** ** A window from its opening to its close *)

Lemma holySpiritCount_snoc l event :
  holySpiritCount (l ++ [event])
  = holySpiritCount l + (if ability_guid event =? HOLY_SPIRIT then 1 else 0).
Proof.
  unfold holySpiritCount. rewrite filter_app, length_app, filter_cons, filter_nil.
  destruct (Z.eqb_spec (ability_guid event) HOLY_SPIRIT);
    [rewrite decide_True by done | rewrite decide_False by done]; cbn; lia.
Qed.

Lemma casts_in_window casts : ∀ a s rotation,
  Forall (λ c, ability_guid c.2 ≠ REQUIESCAT) casts →
  start (requiescatState a) = Some s →
  requiescatRotations a !! s = Some rotation →
  holySpirits (requiescatState a) = holySpiritCount rotation →
  let a' := run a ((λ c, Cast true c.1 c.2) <$> casts) in
  start (requiescatState a') = Some s
  ∧ requiescatRotations a' !! s = Some (rotation ++ recorded casts)
  ∧ holySpirits (requiescatState a') = holySpiritCount (rotation ++ recorded casts)
  ∧ requiescatErrorResult a' = requiescatErrorResult a.
Proof.
  induction casts as [|[res event] casts IH]; intros a s rotation Hcasts Hs Hrot Hcount.
  - cbn. unfold recorded. cbn. by rewrite app_nil_r.
  - inversion Hcasts as [|? ? Hne Hcasts']; subst. cbn in Hne.
    cbn [fmap list_fmap run foldl dispatch fst snd]. unfold recorded. cbn [fmap list_fmap snd].
    rewrite filter_cons. unfold onCast.
    destruct (Z.eqb_spec (ability_guid event) ATTACK) as [Ha|Ha].
    + rewrite decide_False by (intros ?; congruence).
      by apply (IH a s rotation).
    + rewrite decide_True by done.
      destruct (Z.eqb_spec (ability_guid event) REQUIESCAT) as [?|_]; [done|].
      destruct (IH (record_cast event a) s (rotation ++ [event])) as (H1 & H2 & H3 & H4);
        [done|..].
      * rewrite record_cast_start. exact Hs.
      * unfold record_cast. rewrite Hs. cbn. by rewrite lookup_insert_eq, Hrot.
      * unfold record_cast. rewrite Hs. cbn. rewrite holySpiritCount_snoc, Hcount.
        destruct (_ =? HOLY_SPIRIT); lia.
      * unfold recorded, run in *. rewrite <- app_assoc in H2, H3. cbn in H2, H3.
        rewrite record_cast_errors in H4. done.
Qed.

(** X20. A window opened from the idle state at a new timestamp, with no
    second cast of Requiescat in it: the rotation recorded is the opener and
    the casts other than auto-attacks, the close adds to [missedHolySpirits]
    the shortfall of the very count the table shows for that rotation, and
    the cell is positive exactly when nothing is added. *)
Theorem window_tally_matches_table a res opener casts :
  ATTACK ≠ REQUIESCAT →
  requiescatState a = new_RequiescatState →
  requiescatRotations a !! timestamp opener = None →
  ability_guid opener = REQUIESCAT →
  mp_gate res = true →
  Forall (λ c, ability_guid c.2 ≠ REQUIESCAT) casts →
  let a' := run a (window_events res opener casts) in
  let rotation := opener :: recorded casts in
  requiescatRotations a' !! timestamp opener = Some rotation
  ∧ missedHolySpirits (requiescatErrorResult a')
    = missedHolySpirits (requiescatErrorResult a)
      + Z.max 0 (EXPECTED - holySpiritCount rotation)
  ∧ (cell_positive rotation = true ↔
     missedHolySpirits (requiescatErrorResult a')
     = missedHolySpirits (requiescatErrorResult a))
  ∧ requiescatState a' = new_RequiescatState.
Proof.
  intros Hne Hidle Hfresh Hop Hgate Hcasts a' rotation. subst a' rotation.
  unfold window_events, run. cbn [foldl dispatch]. rewrite foldl_app. cbn [foldl dispatch].
  rewrite Z.eqb_refl.
  set (a1 := onCast res opener a).
  assert (H1 : start (requiescatState a1) = Some (timestamp opener)
               ∧ requiescatRotations a1 !! timestamp opener = Some [opener]
               ∧ holySpirits (requiescatState a1) = holySpiritCount [opener]
               ∧ requiescatErrorResult a1 = requiescatErrorResult a).
  { subst a1. unfold onCast. rewrite Hop.
    destruct (Z.eqb_spec REQUIESCAT ATTACK) as [?|_]; [congruence|].
    rewrite Z.eqb_refl, Hgate. unfold record_cast, open_window. cbn.
    rewrite Hfresh, Hidle. cbn. rewrite lookup_insert_eq.
    repeat split; try done.
    change [opener] with ([] ++ [opener]). rewrite holySpiritCount_snoc, Hop. cbn.
    by destruct (_ =? HOLY_SPIRIT). }
  destruct H1 as (Hs & Hrot & Hcount & Herr).
  destruct (casts_in_window casts a1 _ [opener] Hcasts Hs Hrot Hcount) as (Hs' & Hrot' & Hcount' & Herr').
  unfold run in *. cbn [app] in *.
  set (a2 := foldl dispatch a1 ((λ c, Cast true c.1 c.2) <$> casts)) in *.
  unfold onRemoveRequiescat. cbn. rewrite Hcount', Herr', Herr.
  split; [exact Hrot'|]. split; [done|]. split; [|done].
  unfold cell_positive, EXPECTED. rewrite Z.geb_leb, Z.leb_le. lia.
Qed.

End RotationLaws.

(** ** The laws on the sample logs *)

Section LawRuns.

Import Entities Samples.

Lemma no_selected_buff_no_uptime_run :
  getStatusUptime (env := hole) 0 one_buff 8 1 = Some (0, one_buff).
Proof.
  apply (no_selected_buff_no_uptime (env := hole) 0%nat one_buff 8 1).
  repeat constructor.
Defined.

Lemma late_invuln_discarded : Forall (unaffected (env := late_invuln) 7 1) one_buff.
Proof.
  constructor; [|constructor]. constructor; [|constructor].
  intros _. constructor; [|constructor]. right. cbn. lia.
Defined.

Lemma discarded_invulns_change_nothing_run :
  getStatusUptime (env := late_invuln) 0 one_buff 7 1
  = getStatusUptime (env := without_invulns late_invuln) 0 one_buff 7 1
  ∧ snd <$> getStatusUptime (env := late_invuln) 0 one_buff 7 1 = Some one_buff.
Proof.
  apply (discarded_invulns_change_nothing (env := late_invuln) 0%nat one_buff 7 1).
  exact late_invuln_discarded.
Defined.

Lemma quiet_unaffected es : Forall (unaffected (env := quiet) 7 1) es.
Proof.
  apply Forall_forall. intros e _. apply Forall_forall. intros b _ _. constructor.
Defined.

Lemma uptime_bounds_run :
  ∃ u, getStatusUptime (env := quiet) 0 overlapping 7 1 = Some (u, overlapping)
       ∧ 0 <= u <= 20 ∧ 10 <= u.
Proof.
  destruct (uptime_bounds (env := quiet) 0%nat overlapping 7 1) as (u & Hu & Hb & Hall).
  - apply quiet_unaffected.
  - repeat constructor; cbn; lia.
  - exists u. split; [exact Hu|]. split; [exact Hb|].
    inversion Hall as [|? ? H1 _]; subst. exact H1.
Defined.

Lemma uptime_of_successive_buffs_run :
  getStatusUptime (env := quiet) 0 successive 7 1 = Some (35, successive).
Proof.
  apply (uptime_of_successive_buffs (env := quiet) 0%nat successive 7 1 0).
  - apply quiet_unaffected.
  - vm_compute. repeat split; discriminate.
Defined.

Lemma open_buff_ignores_later_invulns_run :
  getStatusUptime (env := hole) 0 still_up 7 1 = Some (90, still_up).
Proof.
  apply (open_buff_ignores_later_invulns (env := hole) 0%nat
           {| id := 1; buffs := [open_buff] |} open_buff 7 1).
  - reflexivity.
  - reflexivity.
  - reflexivity.
  - cbn; lia.
  - constructor; [cbn; lia | constructor].
Defined.

Lemma invuln_over_start_chops_run :
  getStatusUptime (env := start_invuln) 2 one_buff 7 1
  = Some (5, [ {| id := 1; buffs := [ set_start (closed_buff 7 (Some 1) 1 10 20) 15 ] |} ]).
Proof.
  apply (invuln_over_start_chops (env := start_invuln) 2%nat
           {| id := 1; buffs := [closed_buff 7 (Some 1) 1 10 20] |}
           (closed_buff 7 (Some 1) 1 10 20) (invulnerable 5 15) 20 7 1);
    try reflexivity; try (cbn; lia); discriminate.
Defined.

Lemma invuln_over_end_chops_run :
  getStatusUptime (env := end_invuln) 2 one_buff 7 1
  = Some (5, [ {| id := 1; buffs := [ set_end (closed_buff 7 (Some 1) 1 10 20) (Some 15) ] |} ]).
Proof.
  apply (invuln_over_end_chops (env := end_invuln) 2%nat
           {| id := 1; buffs := [closed_buff 7 (Some 1) 1 10 20] |}
           (closed_buff 7 (Some 1) 1 10 20) (invulnerable 15 25) 20 7 1);
    try reflexivity; try (cbn; lia); discriminate.
Defined.

Lemma covering_invuln_no_uptime_run :
  fst <$> getStatusUptime (env := wide_cover) 2 one_buff 7 1 = Some 0.
Proof.
  apply (covering_invuln_no_uptime (env := wide_cover) 2%nat
           {| id := 1; buffs := [closed_buff 7 (Some 1) 1 10 20] |}
           (closed_buff 7 (Some 1) 1 10 20) (invulnerable 5 25) 20 7 1);
    try reflexivity; try (cbn; lia); discriminate.
Defined.

Lemma getStatusUptime_terminates_run :
  ∃ fuel0 r, ∀ fuel, (fuel0 ≤ fuel)%nat →
    getStatusUptime (env := hole) fuel one_buff 7 1 = Some r.
Proof.
  apply (getStatusUptime_terminates (env := hole) 7 1 one_buff).
  constructor; [|constructor]. constructor; [cbn; lia | constructor].
Defined.

Lemma getStatusUptime_hangs_run :
  getStatusUptime (env := reversed_invuln) 1000 one_buff 7 1 = None.
Proof.
  apply (getStatusUptime_hangs (env := reversed_invuln) 1000%nat
           {| id := 1; buffs := [closed_buff 7 (Some 1) 1 10 20] |}
           (closed_buff 7 (Some 1) 1 10 20) (invulnerable 17 13) 20 7 1);
    try reflexivity; cbn; lia.
Defined.

Lemma irrelevant_event_ignored_run :
  on_event (env := quiet) fresh_tracker bystander = fresh_tracker.
Proof.
  apply (irrelevant_event_ignored (env := quiet) fresh_tracker bystander).
  left. split; reflexivity.
Defined.

Lemma open_buffs_accounting_run :
  open_count 7 (buffs_at 0 (applyBuff (env := quiet) applied_at_10 false fresh_tracker)) = 1%nat
  ∧ open_count 7 (buffs_at 0 (updateBuffStack (env := quiet) applied_at_10 fresh_tracker)) = 0%nat
  ∧ open_count 7 (buffs_at 0 (removeBuff (env := quiet) applied_at_10 false fresh_tracker)) = 0%nat.
Proof.
  apply (open_buffs_accounting (env := quiet) fresh_tracker applied_at_10 0%nat
           {| id := 1; buffs := [] |} 7 false).
  reflexivity.
Defined.

Lemma by_target_first (es : list Entity) event :
  id <$> es = [1] → targetID event = Some 1 → by_target es event = Some 0%nat.
Proof.
  intros Hes Htgt. destruct es as [|e [|? ?]]; try discriminate.
  injection Hes as Hid. unfold by_target. rewrite Htgt. cbn. by rewrite decide_True.
Defined.

Lemma buff_lifecycle_run :
  entities (removeBuff (env := quiet) removed_at_20 false
              (updateBuffStack (env := quiet) stacked_at_12
                 (applyBuff (env := quiet) applied_at_10 false fresh_tracker)))
  = [ {| id := 1;
         buffs := [ {| origin := applied_at_10; start := 10; end_ := Some 20;
                       stacks := Some 2;
                       stackHistory := [ {| stacks_at := Some 1; at_timestamp := 10 |};
                                         {| stacks_at := Some 2; at_timestamp := 12 |};
                                         {| stacks_at := Some 0; at_timestamp := 20 |} ];
                       isDebuff := false |} ] |} ]
  ∧ getStatusUptime (env := quiet) 0
      (entities (removeBuff (env := quiet) removed_at_20 false
                   (updateBuffStack (env := quiet) stacked_at_12
                      (applyBuff (env := quiet) applied_at_10 false fresh_tracker)))) 7 1
    = Some (10,
            entities (removeBuff (env := quiet) removed_at_20 false
                        (updateBuffStack (env := quiet) stacked_at_12
                           (applyBuff (env := quiet) applied_at_10 false fresh_tracker)))).
Proof.
  destruct (buff_lifecycle (env := quiet) fresh_tracker 0%nat {| id := 1; buffs := [] |}
              applied_at_10 false [stacked_at_12] removed_at_20 false)
    as (Hent & _ & Hup).
  - reflexivity.
  - constructor.
  - repeat constructor; try (by left); try (intros es Hes; by apply by_target_first).
  - split; [exact Hent|].
    apply (Hup 0%nat 1); try (cbn; lia); try discriminate.
    + by left.
    + repeat constructor.
    + reflexivity.
Defined.

End LawRuns.

Section ClassifierLawRuns.

Import Requiescat Samples.

Lemma idle_counter_is_zero_run :
  holySpirits (requiescatState (run (data := paladin) initial two_requiescats)) = 0.
Proof.
  destruct (idle_counter_is_zero (data := paladin) two_requiescats) as [_ Hidle].
  apply Hidle. reflexivity.
Defined.

Lemma missed_buffs_counts_failed_gates_run :
  missedRequiescatBuffs (requiescatErrorResult (run (data := paladin) initial two_requiescats))
  = 1.
Proof.
  rewrite (missed_buffs_counts_failed_gates (data := paladin) two_requiescats initial).
  - reflexivity.
  - discriminate.
Defined.

Lemma window_tally_matches_table_run :
  requiescatRotations
    (run (data := paladin) initial (window_events (data := paladin) full_mp requiescat_cast window_casts))
    !! 100
  = Some [ requiescat_cast; cast_of 7384 101; cast_of 7384 102; cast_of 16 104 ]
  ∧ missedHolySpirits (requiescatErrorResult
      (run (data := paladin) initial (window_events (data := paladin) full_mp requiescat_cast window_casts)))
    = 3.
Proof.
  destruct (window_tally_matches_table (data := paladin) initial full_mp requiescat_cast
              window_casts) as (Hrot & Hmiss & _).
  - discriminate.
  - reflexivity.
  - reflexivity.
  - reflexivity.
  - reflexivity.
  - repeat constructor; discriminate.
  - split; [exact Hrot | exact Hmiss].
Defined.

End ClassifierLawRuns.
